(** * fmutils: field masks over protobuf messages

    A shallow embedding of [fmutils.go]: the two mask builders
    ([NestedMaskFromPaths], [WildcardNestedMaskFromPaths]), the exact
    traversal engine ([NestedMask.Filter], [NestedMask.Prune]) and the
    wildcard traversal engine ([WildcardNestedMask.Filter],
    [WildcardNestedMask.Prune] with their helpers [filterField] and
    [filterMapKey]).

    Go mutates the message in place; here every operation returns the new
    message, wrapped in [Run]: [Done] when the Go call returns, [Panic] when
    it panics. *)

From Stdlib Require Import ZArith Ascii String DecimalString.
From stdpp Require Import gmap strings list fin_maps.

Open Scope string_scope.
Open Scope list_scope.

(** ** Mask trees *)

(** [type NestedMask map[string]NestedMask]: a recursive Go map.  Go maps
    are unordered and compared by content, which is what [gmap] gives. *)
#[warnings="-register-all"]
Inductive NestedMask : Type :=
  Mask (children : gmap string NestedMask).

Definition children (mask : NestedMask) : gmap string NestedMask :=
  match mask with Mask c => c end.

(** [type WildcardNestedMask map[string]WildcardNestedMask] has the same
    shape; the two Go types differ only in the methods they carry. *)
Abbreviation WildcardNestedMask := NestedMask (only parsing).

(** [make(NestedMask)] *)
Definition make : NestedMask := Mask ∅.

(** [len(mask)] *)
Definition len (mask : NestedMask) : nat := size (children mask).

(** [m, ok := mask[key]] *)
#[global] Instance NestedMask_lookup : Lookup string NestedMask NestedMask :=
  fun key mask => children mask !! key.

(** [mask[key] = c] *)
#[global] Instance NestedMask_insert : Insert string NestedMask NestedMask :=
  fun key c mask => Mask (<[key := c]> (children mask)).

(** ** Mask builder *)

(** The body of the loop [for _, letter := range path] of
    [NestedMaskFromPaths], together with the statement after it.  [letters]
    is the segment read so far and [curr] the node the walk stands on.  In
    Go [curr] aliases a node inside the tree, so what the rest of the walk
    does to the child [c] is seen through [curr[key]]; here the walked child
    is stored back under [key].  Paths are ASCII, so the runes of the Go
    loop are the characters of the string. *)
Fixpoint walk (path : string) (letters : string) (curr : NestedMask)
  : NestedMask :=
  match path with
  | EmptyString =>
      match letters with
      | EmptyString => curr
      | key =>
          match curr !! key with
          | Some _ => curr
          | None => <[key := make]> curr
          end
      end
  | String letter rest =>
      if Ascii.eqb letter "."%char then
        match letters with
        | EmptyString => walk rest EmptyString curr
        | key =>
            let c := match curr !! key with
                     | Some c => c
                     | None => make
                     end in
            <[key := walk rest EmptyString c]> curr
        end
      else walk rest (letters +:+ String letter EmptyString) curr
  end.

(** One round of the loop [for _, path := range paths]: [curr := mask] and
    [var letters []rune], then the walk. *)
Definition add_path (mask : NestedMask) (path : string) : NestedMask :=
  walk path EmptyString mask.

(** [func NestedMaskFromPaths(paths []string) NestedMask] *)
Definition NestedMaskFromPaths (paths : list string) : NestedMask :=
  fold_left add_path paths make.

(** [func WildcardNestedMaskFromPaths(paths []string) WildcardNestedMask]:
    the source repeats the body of [NestedMaskFromPaths] on the other type. *)
Definition WildcardNestedMaskFromPaths (paths : list string)
  : WildcardNestedMask :=
  fold_left add_path paths make.

(** *** The builder read as insertion into a trie *)

(** The segments [walk] reads from [path] when it has already read
    [letters]: the pieces between the dots, empty pieces dropped. *)
Fixpoint segments (path : string) (letters : string) : list string :=
  match path with
  | EmptyString =>
      match letters with
      | EmptyString => []
      | key => [key]
      end
  | String letter rest =>
      if Ascii.eqb letter "."%char then
        match letters with
        | EmptyString => segments rest EmptyString
        | key => key :: segments rest EmptyString
        end
      else segments rest (letters +:+ String letter EmptyString)
  end.

(** Insertion of one path, given by its segments, into a trie. *)
Fixpoint insert_segs (ks : list string) (mask : NestedMask) : NestedMask :=
  match ks with
  | [] => mask
  | k :: ks' => <[k := insert_segs ks' (default make (mask !! k))]> mask
  end.

(** The chain of keys [ks] leads from the root of [mask] to a node. *)
Fixpoint has_path (ks : list string) (mask : NestedMask) : Prop :=
  match ks with
  | [] => True
  | k :: ks' =>
      match mask !! k with
      | Some c => has_path ks' c
      | None => False
      end
  end.

(** ** Messages, as the reflection interface shows them *)

(** A scalar of a message: what [protoreflect.Value] holds when it is
    neither a message, a list nor a map. *)
Inductive Scalar : Type :=
| SInt (z : Z)
| SString (s : string)
| SBool (b : bool).

(** [protoreflect.MapKey]: protobuf map keys are strings, booleans or
    integers. *)
Inductive MapKey : Type :=
| KString (s : string)
| KBool (b : bool)
| KInt (z : Z).

#[global] Instance MapKey_eq_dec : EqDecision MapKey.
Proof. solve_decision. Defined.

(** [mk.String()]: the key itself for a string key, [true]/[false] for a
    boolean key, decimal digits for an integer key. *)
Definition MapKey_String (mk : MapKey) : string :=
  match mk with
  | KString s => s
  | KBool b => if b then "true" else "false"
  | KInt z => NilZero.string_of_int (Z.to_int z)
  end.

(** [protoreflect.Value] and [protoreflect.Message].  A message is the
    sequence of the fields stored in it, a field being the name of its
    descriptor and its value, in the order [Range] visits them (Go leaves
    that order open; every order is some such list).  The kind questions the
    source asks the descriptor are answered by the value: [fd.IsMap()] holds
    when the value is a [VMap], [fd.IsList()] when it is a [VList], and
    [fd.Kind() == protoreflect.MessageKind] on a field that is neither holds
    when it is a [VMessage]. *)
#[warnings="-register-all"]
Inductive Value : Type :=
| VScalar (s : Scalar)
| VMessage (m : Message)
| VList (elems : list Value)
| VMap (entries : list (MapKey * Value))
with Message : Type :=
| Msg (fields : list (string * Value)).

Definition fields (msg : Message) : list (string * Value) :=
  match msg with Msg fs => fs end.

(** A field is populated unless it is a list without elements or a map
    without entries: [Has] of protoreflect.  A map whose last entry was
    cleared stays in [fields] and is not populated. *)
Definition populated (v : Value) : bool :=
  match v with
  | VList [] => false
  | VMap [] => false
  | _ => true
  end.

(** ** Running Go code *)

(** How a call ends: it returns, or it panics.  [OutOfFuel] belongs to the
    fuel-indexed definition of the wildcard engine only. *)
Inductive Run (A : Type) : Type :=
| Done (a : A)
| Panic
| OutOfFuel.

Arguments Done {A} a.
Arguments Panic {A}.
Arguments OutOfFuel {A}.

Definition Run_bind {A B : Type} (r : Run A) (k : A -> Run B) : Run B :=
  match r with
  | Done a => k a
  | Panic => Panic
  | OutOfFuel => OutOfFuel
  end.

Notation "'let*' x ':=' r 'in' k" := (Run_bind r (fun x => k))
  (at level 10, x pattern, r at level 100, k at level 200).

(** What a [Range] callback did to the item it was called on: [None] when
    it cleared the item ([rft.Clear(fd)], [xmap.Clear(mk)]), the item's
    value otherwise. *)
Definition Kept := option Value.

Section Range.
Context {K : Type}.
Variable present : Value -> bool.
Variable f : K -> Value -> Run (bool * Kept).

(** [Range(f)]: calls [f] on the present items one after the other and
    stops when [f] answers [false]. *)
Fixpoint Range (items : list (K * Value)) : Run (list (K * Value)) :=
  match items with
  | [] => Done []
  | (k, v) :: rest =>
      if present v then
        let* (continue, kept) := f k v in
        let here := match kept with
                    | Some v' => [(k, v')]
                    | None => []
                    end in
        if (continue : bool) then
          let* rest' := Range rest in
          Done (here ++ rest')
        else Done (here ++ rest)
      else
        let* rest' := Range rest in
        Done ((k, v) :: rest')
  end.
End Range.

(** [rft.Range]: over the populated fields. *)
Definition Message_Range := @Range string populated.

(** [xmap.Range]: over all entries. *)
Definition Map_Range := @Range MapKey (fun _ => true).

Section Elements.
Variable f : Message -> Run Message.

(** [for i := 0; i < list.Len(); i++ { f(list.Get(i).Message()) }];
    [Message()] panics on an element that holds no message. *)
Fixpoint List_each (elems : list Value) : Run (list Value) :=
  match elems with
  | [] => Done []
  | VMessage x :: rest =>
      let* x' := f x in
      let* rest' := List_each rest in
      Done (VMessage x' :: rest')
  | _ :: _ => Panic
  end.
End Elements.

(** ** Exact traversal engine *)

Section NestedMask.
(** The method the closures call on a subtree: [mi.Filter(...)] and
    [m.Filter(...)] in [Filter], [mi.Prune(...)] and [m.Prune(...)] in
    [Prune]. *)
Variable recurse : NestedMask -> Message -> Run Message.

(** The closure [Filter] hands to [xmap.Range]; [m] is the subtree of the
    map field. *)
Definition Filter_entry (m : NestedMask) (mk : MapKey) (mv : Value)
  : Run (bool * Kept) :=
  match m !! MapKey_String mk with
  | Some mi =>
      match mv with
      | VMessage i =>
          if (0 <? len mi)%nat then
            let* i' := recurse mi i in
            Done (true, Some (VMessage i'))
          else Done (true, Some mv)
      | _ => Done (true, Some mv)
      end
  | None => Done (true, None)
  end.

(** The closure [Filter] hands to [rft.Range]. *)
Definition Filter_field (mask : NestedMask) (name : string) (v : Value)
  : Run (bool * Kept) :=
  match mask !! name with
  | Some m =>
      if (len m =? 0)%nat then Done (true, Some v) else
      match v with
      | VMap entries =>
          let* entries' := Map_Range (Filter_entry m) entries in
          Done (true, Some (VMap entries'))
      | VList elems =>
          let* elems' := List_each (recurse m) elems in
          Done (true, Some (VList elems'))
      | VMessage x =>
          let* x' := recurse m x in
          Done (true, Some (VMessage x'))
      | VScalar _ => Done (true, Some v)
      end
  | None => Done (true, None)
  end.

(** The closure [Prune] hands to [xmap.Range]. *)
Definition Prune_entry (m : NestedMask) (mk : MapKey) (mv : Value)
  : Run (bool * Kept) :=
  match m !! MapKey_String mk with
  | Some mi =>
      match mv with
      | VMessage i =>
          if (0 <? len mi)%nat then
            let* i' := recurse mi i in
            Done (true, Some (VMessage i'))
          else Done (true, None)
      | _ => Done (true, None)
      end
  | None => Done (true, Some mv)
  end.

(** The closure [Prune] hands to [rft.Range]. *)
Definition Prune_field (mask : NestedMask) (name : string) (v : Value)
  : Run (bool * Kept) :=
  match mask !! name with
  | Some m =>
      if (len m =? 0)%nat then Done (true, None) else
      match v with
      | VMap entries =>
          let* entries' := Map_Range (Prune_entry m) entries in
          Done (true, Some (VMap entries'))
      | VList elems =>
          let* elems' := List_each (recurse m) elems in
          Done (true, Some (VList elems'))
      | VMessage x =>
          let* x' := recurse m x in
          Done (true, Some (VMessage x'))
      | VScalar _ => Done (true, Some v)
      end
  | None => Done (true, Some v)
  end.
End NestedMask.

(** [func (mask NestedMask) Filter(msg proto.Message)] *)
Fixpoint NestedMask_Filter (mask : NestedMask) (msg : Message) {struct msg}
  : Run Message :=
  if (len mask =? 0)%nat then Done msg else
  match msg with
  | Msg fs =>
      let* fs' := Message_Range (Filter_field NestedMask_Filter mask) fs in
      Done (Msg fs')
  end.

(** [func (mask NestedMask) Prune(msg proto.Message)] *)
Fixpoint NestedMask_Prune (mask : NestedMask) (msg : Message) {struct msg}
  : Run Message :=
  if (len mask =? 0)%nat then Done msg else
  match msg with
  | Msg fs =>
      let* fs' := Message_Range (Prune_field NestedMask_Prune mask) fs in
      Done (Msg fs')
  end.

(** [func Filter(msg proto.Message, paths []string)] *)
Definition Filter (msg : Message) (paths : list string) : Run Message :=
  NestedMask_Filter (NestedMaskFromPaths paths) msg.

(** [func Prune(msg proto.Message, paths []string)] *)
Definition Prune (msg : Message) (paths : list string) : Run Message :=
  NestedMask_Prune (NestedMaskFromPaths paths) msg.

(** ** Wildcard traversal engine *)

Section WildcardNestedMask.
(** The method [Filter] that [filterField] and [filterMapKey] call on a
    subtree ([m.Filter(...)]). *)
Variable m_Filter : WildcardNestedMask -> Message -> Run Message.

(** [func (mask WildcardNestedMask) filterMapKey(xmap, mk, mv, wildcard)
    bool]: the answer and the entry's value after the call. *)
Definition filterMapKey (mask : WildcardNestedMask)
    (mk : MapKey) (mv : Value) (wildcard : bool) : Run (bool * Value) :=
  let key := if wildcard then "*" else MapKey_String mk in
  match mask !! key with
  | Some m =>
      match mv with
      | VMessage i =>
          if (0 <? len m)%nat then
            let* i' := m_Filter m i in
            Done (true, VMessage i')
          else Done (true, mv)
      | _ => Done (true, mv)
      end
  | None => Done (true, mv)
  end.

(** [func (mask WildcardNestedMask) filterField(rft, fd, wildcard,
    pruning) bool]: the answer and the field's value after the call. *)
Definition filterField (mask : WildcardNestedMask)
    (name : string) (v : Value) (wildcard pruning : bool)
  : Run (bool * Value) :=
  let key := if wildcard then "*" else name in
  match mask !! key with
  | Some m =>
      if (len m =? 0)%nat then Done (true, v) else
      match v with
      | VMap entries =>
          let* entries' := Map_Range (fun mk mv =>
            let* (matched, mv) := filterMapKey mask mk mv false in
            if (matched : bool) then
              Done (true, if pruning then None else Some mv)
            else
              let* (matched, mv) := filterMapKey mask mk mv true in
              if (matched : bool) then
                Done (true, if pruning then None else Some mv)
              else
                Done (false, if negb pruning then None else Some mv))
            entries in
          Done (true, VMap entries')
      | VList elems =>
          let* elems' := List_each (m_Filter m) elems in
          Done (true, VList elems')
      | VMessage x =>
          let* x' := m_Filter m x in
          Done (true, VMessage x')
      | VScalar _ => Done (true, v)
      end
  | None => Done (true, v)
  end.

(** The body of [func (mask WildcardNestedMask) Filter(msg)]. *)
Definition Filter_body (mask : WildcardNestedMask) (msg : Message)
  : Run Message :=
  if (len mask =? 0)%nat then Done msg else
  let* fs' := Message_Range (fun name v =>
    let* (matched, v) := filterField mask name v false false in
    if (matched : bool) then Done (true, Some v)
    else
      let* (matched, v) := filterField mask name v true false in
      if (matched : bool) then Done (true, Some v)
      else Done (false, None)) (fields msg) in
  Done (Msg fs').

(** The body of [func (mask WildcardNestedMask) Prune(msg)]. *)
Definition Prune_body (mask : WildcardNestedMask) (msg : Message)
  : Run Message :=
  if (len mask =? 0)%nat then Done msg else
  let* fs' := Message_Range (fun name v =>
    let* (matched, v) := filterField mask name v false true in
    if (matched : bool) then Done (true, None)
    else
      let* (matched, v) := filterField mask name v true true in
      if (matched : bool) then Done (true, None)
      else Done (false, Some v)) (fields msg) in
  Done (Msg fs').
End WildcardNestedMask.

(** [Filter] calls itself through [filterField] and [filterMapKey], the
    second time on a value the first call has already rewritten, so the
    recursion is tied with fuel: one unit per level of nesting. *)
Fixpoint Filter_fuel (fuel : nat) (mask : WildcardNestedMask) (msg : Message)
  : Run Message :=
  match fuel with
  | O => OutOfFuel
  | S fuel' => Filter_body (Filter_fuel fuel') mask msg
  end.

(** The levels of nesting of a message. *)
Fixpoint Message_depth (msg : Message) : nat :=
  match msg with
  | Msg fs =>
      S (foldr (fun f d => Nat.max (Value_depth (snd f)) d) O fs)
  end
with Value_depth (v : Value) : nat :=
  match v with
  | VScalar _ => O
  | VMessage m => Message_depth m
  | VList elems => foldr (fun e d => Nat.max (Value_depth e) d) O elems
  | VMap entries =>
      foldr (fun e d => Nat.max (Value_depth (snd e)) d) O entries
  end.

(** [func (mask WildcardNestedMask) Filter(msg proto.Message)] *)
Definition WildcardNestedMask_Filter (mask : WildcardNestedMask)
    (msg : Message) : Run Message :=
  Filter_fuel (Message_depth msg) mask msg.

(** [func (mask WildcardNestedMask) Prune(msg proto.Message)] *)
Definition WildcardNestedMask_Prune (mask : WildcardNestedMask)
    (msg : Message) : Run Message :=
  Prune_body WildcardNestedMask_Filter mask msg.

(** [func WildcardFilter(msg proto.Message, paths []string)] *)
Definition WildcardFilter (msg : Message) (paths : list string)
  : Run Message :=
  WildcardNestedMask_Filter (WildcardNestedMaskFromPaths paths) msg.

(** [func WildcardPrune(msg proto.Message, paths []string)] *)
Definition WildcardPrune (msg : Message) (paths : list string)
  : Run Message :=
  WildcardNestedMask_Prune (WildcardNestedMaskFromPaths paths) msg.

(** [_, ok := mv.Interface().(protoreflect.Message)] *)
Definition is_message (v : Value) : bool :=
  match v with
  | VMessage _ => true
  | _ => false
  end.

(** A [Range] callback that never asks to stop. *)
Definition steady {K : Type} (f : K -> Value -> Run (bool * Kept)) : Prop :=
  forall k v b r, f k v = Done (b, r) -> b = true.

(** ** Reading a message *)

(** [rft.Has(fd)] for the field called [name]. *)
Definition Has (msg : Message) (name : string) : bool :=
  existsb (fun f => bool_decide (fst f = name) && populated (snd f))
          (fields msg).

(** The value stored under [key] in a sequence of fields or of entries:
    the first one [Range] meets. *)
Fixpoint assoc {K : Type} `{EqDecision K} (key : K) (items : list (K * Value))
  : option Value :=
  match items with
  | [] => None
  | (k, v) :: rest => if decide (k = key) then Some v else assoc key rest
  end.

(** The value stored for the field called [name]. *)
Definition Get (msg : Message) (name : string) : option Value :=
  assoc name (fields msg).

(** [xmap.Get(mk)] on the entries of a map. *)
Definition Map_Get (entries : list (MapKey * Value)) (mk : MapKey)
  : option Value :=
  assoc mk entries.

(** ** Induction over the messages inside a message *)

(** [P] holds of the message a value holds, if it holds one. *)
Definition on_message (P : Message -> Prop) (v : Value) : Prop :=
  match v with
  | VMessage m => P m
  | _ => True
  end.

(** [P] holds of the messages the engines reach from a field's value: the
    message of a singular field, the elements of a list, the values of a
    map. *)
Definition inside (P : Message -> Prop) (v : Value) : Prop :=
  match v with
  | VScalar _ => True
  | VMessage m => P m
  | VList elems => Forall (on_message P) elems
  | VMap entries => Forall (fun e => on_message P (snd e)) entries
  end.

Section Message_induction.
Variable P : Message -> Prop.
Hypothesis step :
  forall fs, Forall (fun f => inside P (snd f)) fs -> P (Msg fs).

Fixpoint Message_induction (msg : Message) : P msg :=
  match msg with
  | Msg fs =>
      step fs
        ((fix fields_ok (fs : list (string * Value))
            : Forall (fun f => inside P (snd f)) fs :=
            match fs return Forall (fun f => inside P (snd f)) fs with
            | [] => List.Forall_nil _
            | (n, v) :: rest =>
                List.Forall_cons (fun f => inside P (snd f)) (n, v) rest
                  (Value_induction v) (fields_ok rest)
            end) fs)
  end
with Value_induction (v : Value) : inside P v :=
  match v with
  | VScalar _ => I
  | VMessage m => Message_induction m
  | VList elems =>
      (fix elems_ok (l : list Value) : Forall (on_message P) l :=
         match l return Forall (on_message P) l with
         | [] => List.Forall_nil _
         | e :: rest =>
             List.Forall_cons (on_message P) e rest
               (match e return on_message P e with
                | VMessage m => Message_induction m
                | _ => I
                end) (elems_ok rest)
         end) elems
  | VMap entries =>
      (fix entries_ok (l : list (MapKey * Value))
         : Forall (fun e => on_message P (snd e)) l :=
         match l return Forall (fun e => on_message P (snd e)) l with
         | [] => List.Forall_nil _
         | (k, e) :: rest =>
             List.Forall_cons (fun e => on_message P (snd e)) (k, e) rest
               (match e return on_message P e with
                | VMessage m => Message_induction m
                | _ => I
                end) (entries_ok rest)
         end) entries
  end.
End Message_induction.

(** ** The messages of the tests *)

Definition user : Value :=
  VMessage (Msg [("user_id", VScalar (SInt 1)); ("name", VScalar (SString "n"))]).

Definition photo : Value :=
  VMessage (Msg [("photo_id", VScalar (SInt 2))]).

Definition profile : Message := Msg [("user", user); ("photo", photo)].

Definition tags : Value :=
  VMap [(KString "t1", VScalar (SString "1"));
        (KString "t2", VScalar (SString "2"));
        (KString "t3", VScalar (SString "3"))].

Definition attribute : Value := VMessage (Msg [("tags", tags)]).

Definition attrs : Message :=
  Msg [("attrs", VMap [(KString "a1", attribute);
                       (KString "a2", attribute);
                       (KString "a3", attribute)])].

Definition only_tag (t : string) (s : string) : Value :=
  VMessage (Msg [("tags", VMap [(KString t, VScalar (SString s))])]).

(** ** Shapes of paths and of trees *)

(** The path has no character other than the dot (the empty path has
    none at all). *)
Fixpoint only_dots (path : string) : bool :=
  match path with
  | EmptyString => true
  | String letter rest => Ascii.eqb letter "."%char && only_dots rest
  end.

(** The tree that is one chain of keys down to a leaf. *)
Definition chain (ks : list string) : NestedMask :=
  foldr (fun k below => Mask {[ k := below ]}) make ks.

(** Every list field of the message, at any depth, holds messages only:
    no repeated scalar field is set. *)
Fixpoint lists_hold_messages (msg : Message) : bool :=
  match msg with
  | Msg fs => forallb (fun f => value_lists_hold_messages (snd f)) fs
  end
with value_lists_hold_messages (v : Value) : bool :=
  match v with
  | VScalar _ => true
  | VMessage m => lists_hold_messages m
  | VList elems =>
      forallb (fun e => match e with
                        | VMessage x => lists_hold_messages x
                        | _ => false
                        end) elems
  | VMap entries =>
      forallb (fun e => match snd e with
                        | VMessage x => lists_hold_messages x
                        | _ => true
                        end) entries
  end.

(** * Properties *)

(** ** The tests of the repository *)

Example builder_nested :
  NestedMaskFromPaths ["aaa.bb.c"; "dd.e"; "f"] =
  Mask {[ "aaa" := Mask {[ "bb" := Mask {[ "c" := make ]} ]};
          "dd" := Mask {[ "e" := make ]};
          "f" := make ]}.
Proof. vm_compute. reflexivity. Qed.

Example builder_invalid : NestedMaskFromPaths ["."; ".."; "..."] = make.
Proof. reflexivity. Qed.

Example exact_filter_map :
  Filter attrs ["attrs.a1"; "attrs.a2.tags.t2"] =
  Done (Msg [("attrs", VMap [(KString "a1", attribute);
                             (KString "a2", only_tag "t2" "2")])]).
Proof. vm_compute. reflexivity. Qed.

Example exact_prune_map :
  Prune attrs ["attrs.a1"; "attrs.a2.tags.t2"] =
  Done (Msg [("attrs",
    VMap [(KString "a2",
           VMessage (Msg [("tags", VMap [(KString "t1", VScalar (SString "1"));
                                         (KString "t3", VScalar (SString "3"))])]));
          (KString "a3", attribute)])]).
Proof. vm_compute. reflexivity. Qed.

(** ** Mask trees as maps *)

Lemma mask_lookup_unfold (mask : NestedMask) (k : string) :
  mask !! k = children mask !! k.
Proof. reflexivity. Qed.

Lemma mask_insert_unfold (mask : NestedMask) (k : string) (c : NestedMask) :
  <[k := c]> mask = Mask (<[k := c]> (children mask)).
Proof. reflexivity. Qed.

Lemma mask_lookup_insert_eq (mask : NestedMask) (k : string) (c : NestedMask) :
  (<[k := c]> mask : NestedMask) !! k = Some c.
Proof.
  rewrite mask_insert_unfold, mask_lookup_unfold. simpl.
  apply lookup_insert_eq.
Qed.

Lemma mask_lookup_insert_ne (mask : NestedMask) (k k' : string) (c : NestedMask) :
  k ≠ k' -> (<[k := c]> mask : NestedMask) !! k' = mask !! k'.
Proof.
  intros Hne. rewrite mask_insert_unfold, !mask_lookup_unfold. simpl.
  now apply lookup_insert_ne.
Qed.

Lemma mask_insert_insert_eq (mask : NestedMask) (k : string) (c c' : NestedMask) :
  <[k := c]> (<[k := c']> mask : NestedMask) = <[k := c]> mask.
Proof.
  rewrite !mask_insert_unfold. simpl. f_equal. apply insert_insert_eq.
Qed.

Lemma mask_insert_commute (mask : NestedMask) (k k' : string) (c c' : NestedMask) :
  k ≠ k' ->
  <[k := c]> (<[k' := c']> mask : NestedMask) = <[k' := c']> (<[k := c]> mask).
Proof.
  intros Hne. rewrite !mask_insert_unfold. simpl. f_equal.
  now apply insert_insert_ne.
Qed.

Lemma mask_insert_id (mask : NestedMask) (k : string) (c : NestedMask) :
  mask !! k = Some c -> <[k := c]> mask = mask.
Proof.
  rewrite mask_insert_unfold, mask_lookup_unfold. destruct mask as [ch]. simpl.
  intros H. f_equal. now apply insert_id.
Qed.

Lemma len_zero_iff (mask : NestedMask) : len mask = 0%nat <-> mask = make.
Proof.
  destruct mask as [ch]. unfold len, make. simpl. rewrite map_size_empty_iff.
  split; [intros ->; reflexivity | intros [= ->]; reflexivity].
Qed.

Lemma lookup_make (k : string) : make !! k = None.
Proof. rewrite mask_lookup_unfold. apply lookup_empty. Qed.

(** ** The builder is trie insertion *)

Lemma walk_insert_segs (path letters : string) (curr : NestedMask) :
  walk path letters curr = insert_segs (segments path letters) curr.
Proof.
  revert letters curr.
  induction path as [|letter rest IH]; intros letters curr; simpl.
  - destruct letters as [|a s]; [reflexivity|]. simpl.
    destruct (curr !! String a s) as [c|] eqn:E; simpl.
    + symmetry. now apply mask_insert_id.
    + reflexivity.
  - destruct (Ascii.eqb letter "."%char).
    + destruct letters as [|a s]; [apply IH|]. simpl.
      rewrite IH. destruct (curr !! String a s); reflexivity.
    + apply IH.
Qed.

Lemma insert_segs_commute (ks1 ks2 : list string) (mask : NestedMask) :
  insert_segs ks1 (insert_segs ks2 mask) =
  insert_segs ks2 (insert_segs ks1 mask).
Proof.
  revert ks2 mask.
  induction ks1 as [|k1 r1 IH]; intros ks2 mask; [reflexivity|].
  destruct ks2 as [|k2 r2]; [reflexivity|]. simpl.
  destruct (decide (k1 = k2)) as [->|Hne].
  - rewrite !mask_lookup_insert_eq, !mask_insert_insert_eq. simpl.
    now rewrite IH.
  - rewrite (mask_lookup_insert_ne _ k2 k1) by congruence.
    rewrite (mask_lookup_insert_ne _ k1 k2) by congruence.
    now apply mask_insert_commute.
Qed.

Lemma insert_segs_idem (ks : list string) (mask : NestedMask) :
  insert_segs ks (insert_segs ks mask) = insert_segs ks mask.
Proof.
  revert mask. induction ks as [|k r IH]; intros mask; [reflexivity|].
  simpl. rewrite mask_lookup_insert_eq, mask_insert_insert_eq. simpl.
  now rewrite IH.
Qed.

Lemma has_path_insert_self (ks : list string) (mask : NestedMask) :
  has_path ks (insert_segs ks mask).
Proof.
  revert mask. induction ks as [|k r IH]; intros mask; simpl; [exact I|].
  rewrite mask_lookup_insert_eq. apply IH.
Qed.

Lemma has_path_insert_mono (ks ks' : list string) (mask : NestedMask) :
  has_path ks mask -> has_path ks (insert_segs ks' mask).
Proof.
  revert ks' mask. induction ks as [|k r IH]; intros ks' mask; simpl; [auto|].
  destruct (mask !! k) as [c|] eqn:E; [|intros []].
  intros Hc. destruct ks' as [|k' r']; simpl.
  - now rewrite E.
  - destruct (decide (k' = k)) as [->|Hne].
    + rewrite mask_lookup_insert_eq, E. simpl. now apply IH.
    + rewrite mask_lookup_insert_ne by exact Hne. now rewrite E.
Qed.

Section FoldUnion.
Context {A B : Type} (f : A -> B -> A).
Hypothesis f_comm : forall m x y, f (f m x) y = f (f m y) x.

Lemma fold_left_commute (l : list B) (m : A) (x : B) :
  f (fold_left f l m) x = fold_left f l (f m x).
Proof.
  revert m. induction l as [|y l IH]; intros m; simpl; [reflexivity|].
  now rewrite IH, f_comm.
Qed.

Lemma fold_left_permutation (l1 l2 : list B) :
  Permutation l1 l2 -> forall m, fold_left f l1 m = fold_left f l2 m.
Proof.
  induction 1 as [|x l1 l2 _ IH|x y l|l1 l2 l3 _ IH1 _ IH2]; intros m; simpl.
  - reflexivity.
  - apply IH.
  - now rewrite f_comm.
  - now rewrite IH1, IH2.
Qed.

Hypothesis f_idem : forall m x, f (f m x) x = f m x.

Lemma fold_left_absorbs (l : list B) (m : A) (x : B) :
  In x l -> f (fold_left f l m) x = fold_left f l m.
Proof.
  revert m. induction l as [|y l IH]; intros m; simpl; [intros []|].
  intros [->|Hin].
  - now rewrite fold_left_commute, f_idem.
  - now apply IH.
Qed.

Lemma fold_left_absorbed (l : list B) (m : A) :
  (forall x, In x l -> f m x = m) -> fold_left f l m = m.
Proof.
  induction l as [|y l IH]; simpl; intros H; [reflexivity|].
  rewrite (H y) by now left. apply IH. intros x Hx. apply H. now right.
Qed.
End FoldUnion.

Lemma add_path_commute (mask : NestedMask) (p q : string) :
  add_path (add_path mask p) q = add_path (add_path mask q) p.
Proof. unfold add_path. rewrite !walk_insert_segs. apply insert_segs_commute. Qed.

Lemma add_path_idem (mask : NestedMask) (p : string) :
  add_path (add_path mask p) p = add_path mask p.
Proof. unfold add_path. rewrite !walk_insert_segs. apply insert_segs_idem. Qed.

Lemma has_path_fold_mono (ks : list string) (paths : list string)
    (mask : NestedMask) :
  has_path ks mask -> has_path ks (fold_left add_path paths mask).
Proof.
  revert mask. induction paths as [|p paths IH]; intros mask H; simpl; [exact H|].
  apply IH. unfold add_path. rewrite walk_insert_segs.
  now apply has_path_insert_mono.
Qed.

Lemma has_path_build (paths : list string) (p : string) :
  In p paths -> has_path (segments p EmptyString) (NestedMaskFromPaths paths).
Proof.
  unfold NestedMaskFromPaths.
  generalize make. induction paths as [|q paths IH]; intros mask; simpl; [intros []|].
  intros [->|Hin].
  - apply has_path_fold_mono. unfold add_path. rewrite walk_insert_segs.
    apply has_path_insert_self.
  - now apply IH.
Qed.



(** ** What [Range] does to the items *)

Lemma Run_bind_Done {A B : Type} (r : Run A) (k : A -> Run B) (b : B) :
  Run_bind r k = Done b -> exists a, r = Done a /\ k a = Done b.
Proof. destruct r as [a| |]; simpl; intros H; try discriminate. eauto. Qed.

Ltac run_inv H :=
  let a := fresh "a" in
  let E := fresh "E" in
  apply Run_bind_Done in H; destruct H as (a & E & H).

Section RangeFacts.
Context {K : Type} `{EqDecision K}.
Variable present : Value -> bool.
Variable f : K -> Value -> Run (bool * Kept).

Lemma Range_same (items items' : list (K * Value)) :
  (forall k v b r, f k v = Done (b, r) -> r = Some v) ->
  Range present f items = Done items' -> items' = items.
Proof.
  intros Hf. revert items'.
  induction items as [|[k v] rest IH]; intros items' HR; simpl in HR.
  - now inversion HR.
  - destruct (present v).
    + run_inv HR. destruct a as [b r]. apply Hf in E as ->.
      destruct b.
      * run_inv HR. inversion HR. simpl. f_equal. now apply IH.
      * now inversion HR.
    + run_inv HR. inversion HR. f_equal. now apply IH.
Qed.

Hypothesis f_steady : steady f.

Lemma Range_cons_present (k : K) (v : Value) (rest items' : list (K * Value)) :
  present v = true ->
  Range present f ((k, v) :: rest) = Done items' ->
  exists r rest',
    f k v = Done (true, r) /\ Range present f rest = Done rest' /\
    items' = match r with Some v' => [(k, v')] | None => [] end ++ rest'.
Proof.
  intros Hp HR. simpl in HR. rewrite Hp in HR.
  run_inv HR. destruct a as [b r].
  pose proof (f_steady _ _ _ _ E) as ->.
  run_inv HR. inversion HR. eauto.
Qed.

Lemma Range_cons_absent (k : K) (v : Value) (rest items' : list (K * Value)) :
  present v = false ->
  Range present f ((k, v) :: rest) = Done items' ->
  exists rest', Range present f rest = Done rest' /\ items' = (k, v) :: rest'.
Proof.
  intros Hp HR. simpl in HR. rewrite Hp in HR.
  run_inv HR. inversion HR. eauto.
Qed.

Lemma Range_assoc_None (key : K) (items items' : list (K * Value)) :
  Range present f items = Done items' ->
  assoc key items = None -> assoc key items' = None.
Proof.
  revert items'.
  induction items as [|[k v] rest IH]; intros items' HR Ha.
  - now inversion HR.
  - simpl in Ha. destruct (decide (k = key)) as [->|Hne]; [discriminate|].
    destruct (present v) eqn:Hp.
    + apply Range_cons_present in HR as (r & rest' & _ & HR & ->); [|exact Hp].
      destruct r as [v'|]; simpl; [rewrite decide_False by exact Hne|]; now apply IH.
    + apply Range_cons_absent in HR as (rest' & HR & ->); [|exact Hp].
      simpl. rewrite decide_False by exact Hne. now apply IH.
Qed.

Lemma Range_assoc (key : K) (items items' : list (K * Value)) (v : Value) :
  Range present f items = Done items' ->
  assoc key items = Some v ->
  if present v
  then exists r, f key v = Done (true, r) /\
                 forall v', r = Some v' -> assoc key items' = Some v'
  else assoc key items' = Some v.
Proof.
  revert items'.
  induction items as [|[k v0] rest IH]; intros items' HR Ha; [discriminate|].
  simpl in Ha. destruct (decide (k = key)) as [->|Hne].
  - inversion Ha; subst v0. destruct (present v) eqn:Hp.
    + apply Range_cons_present in HR as (r & rest' & Hf & HR & ->); [|exact Hp].
      exists r. split; [exact Hf|]. intros v' ->. simpl.
      now rewrite decide_True.
    + apply Range_cons_absent in HR as (rest' & HR & ->); [|exact Hp].
      simpl. now rewrite decide_True.
  - assert (Hgoal : forall rest', Range present f rest = Done rest' ->
              if present v
              then exists r, f key v = Done (true, r) /\
                     forall v', r = Some v' -> assoc key rest' = Some v'
              else assoc key rest' = Some v) by (intros; now apply IH).
    destruct (present v0) eqn:Hp0.
    + apply Range_cons_present in HR as (r & rest' & _ & HR & ->); [|exact Hp0].
      specialize (Hgoal _ HR).
      destruct r as [v1|]; simpl; [rewrite decide_False by exact Hne|]; exact Hgoal.
    + apply Range_cons_absent in HR as (rest' & HR & ->); [|exact Hp0].
      specialize (Hgoal _ HR). simpl. rewrite decide_False by exact Hne.
      exact Hgoal.
Qed.

Lemma Range_cleared (key : K) (items items' : list (K * Value)) :
  Range present f items = Done items' ->
  (forall v b r, In (key, v) items -> present v = true ->
                 f key v = Done (b, r) -> r = None) ->
  forall v, In (key, v) items' -> present v = false.
Proof.
  revert items'.
  induction items as [|[k v0] rest IH]; intros items' HR Hc v Hin.
  - inversion HR; subst. destruct Hin.
  - assert (Hrest : forall rest', Range present f rest = Done rest' ->
              In (key, v) rest' -> present v = false).
    { intros rest' HR' Hin'. apply (IH rest' HR'); [|exact Hin'].
      intros v1 b r Hv1. apply Hc. now right. }
    destruct (present v0) eqn:Hp0.
    + apply Range_cons_present in HR as (r & rest' & Hf & HR & ->); [|exact Hp0].
      destruct r as [v1|]; simpl in Hin.
      * destruct Hin as [Heq|Hin]; [|now apply (Hrest rest')].
        inversion Heq; subst. 
        specialize (Hc v0 true (Some v) (or_introl eq_refl) Hp0 Hf).
        discriminate.
      * now apply (Hrest rest').
    + apply Range_cons_absent in HR as (rest' & HR & ->); [|exact Hp0].
      destruct Hin as [Heq|Hin]; [|now apply (Hrest rest')].
      now inversion Heq; subst.
Qed.

Lemma Range_idem (items items' : list (K * Value)) :
  Range present f items = Done items' ->
  Forall (fun i => forall v', present (snd i) = true ->
              f (fst i) (snd i) = Done (true, Some v') ->
              present v' = true -> f (fst i) v' = Done (true, Some v')) items ->
  Range present f items' = Done items'.
Proof.
  revert items'.
  induction items as [|[k v] rest IH]; intros items' HR Hall.
  - now inversion HR.
  - inversion Hall as [|? ? Hhd Htl]; subst. simpl in Hhd.
    destruct (present v) eqn:Hp.
    + apply Range_cons_present in HR as (r & rest' & Hf & HR & ->); [|exact Hp].
      specialize (IH _ HR Htl).
      destruct r as [v'|]; simpl; [|exact IH].
      destruct (present v') eqn:Hp'.
      * rewrite (Hhd v' eq_refl Hf Hp'). simpl. now rewrite IH.
      * now rewrite IH.
    + apply Range_cons_absent in HR as (rest' & HR & ->); [|exact Hp].
      simpl. rewrite Hp. now rewrite (IH _ HR Htl).
Qed.
End RangeFacts.

(** ** The exact engine *)

Lemma Filter_entry_steady recurse (m : NestedMask) : steady (Filter_entry recurse m).
Proof.
  intros mk mv b r. unfold Filter_entry, Run_bind.
  repeat case_match; intros; simplify_eq; reflexivity.
Qed.

Lemma Prune_entry_steady recurse (m : NestedMask) : steady (Prune_entry recurse m).
Proof.
  intros mk mv b r. unfold Prune_entry, Run_bind.
  repeat case_match; intros; simplify_eq; reflexivity.
Qed.

Lemma Filter_field_steady recurse (mask : NestedMask) :
  steady (Filter_field recurse mask).
Proof.
  intros name v b r. unfold Filter_field, Run_bind.
  repeat case_match; intros; simplify_eq; reflexivity.
Qed.

Lemma Prune_field_steady recurse (mask : NestedMask) :
  steady (Prune_field recurse mask).
Proof.
  intros name v b r. unfold Prune_field, Run_bind.
  repeat case_match; intros; simplify_eq; reflexivity.
Qed.

Lemma NestedMask_Filter_unfold (mask : NestedMask) (fs : list (string * Value)) :
  NestedMask_Filter mask (Msg fs) =
  if (len mask =? 0)%nat then Done (Msg fs) else
  let* fs' := Message_Range (Filter_field NestedMask_Filter mask) fs in
  Done (Msg fs').
Proof. reflexivity. Qed.

Lemma NestedMask_Filter_Done (mask : NestedMask) (msg msg' : Message) :
  len mask ≠ 0%nat ->
  NestedMask_Filter mask msg = Done msg' ->
  Message_Range (Filter_field NestedMask_Filter mask) (fields msg)
  = Done (fields msg').
Proof.
  intros Hne HR. destruct msg as [fs]. simpl in HR.
  destruct (Nat.eqb_spec (len mask) 0) as [Hz|_]; [contradiction|].
  run_inv HR. inversion HR. exact E.
Qed.

Lemma NestedMask_Prune_Done (mask : NestedMask) (msg msg' : Message) :
  len mask ≠ 0%nat ->
  NestedMask_Prune mask msg = Done msg' ->
  Message_Range (Prune_field NestedMask_Prune mask) (fields msg)
  = Done (fields msg').
Proof.
  intros Hne HR. destruct msg as [fs]. simpl in HR.
  destruct (Nat.eqb_spec (len mask) 0) as [Hz|_]; [contradiction|].
  run_inv HR. inversion HR. exact E.
Qed.

Lemma Has_false (msg : Message) (name : string) :
  (forall v, In (name, v) (fields msg) -> populated v = false) ->
  Has msg name = false.
Proof.
  intros H. unfold Has. apply not_true_is_false. intros Hex.
  apply existsb_exists in Hex as ([n v] & Hin & Hb). simpl in Hb.
  apply andb_prop in Hb as [Hn Hp]. apply bool_decide_eq_true in Hn as ->.
  rewrite (H v Hin) in Hp. discriminate.
Qed.

(** An item [Range] keeps as it is stays the value stored under its key. *)
Lemma Range_assoc_kept {K : Type} `{EqDecision K} present
    (f : K -> Value -> Run (bool * Kept)) (key : K)
    (items items' : list (K * Value)) :
  steady f ->
  (forall v b r, f key v = Done (b, r) -> r = Some v) ->
  Range present f items = Done items' ->
  assoc key items' = assoc key items.
Proof.
  intros Hs Hk HR. destruct (assoc key items) as [v|] eqn:Ha.
  - pose proof (Range_assoc present f Hs key items items' v HR Ha) as H.
    destruct (present v); [|exact H].
    destruct H as (r & Hf & H). apply H. now apply Hk in Hf.
  - now apply (Range_assoc_None present f Hs key items).
Qed.

(** C5. With a mask that is not empty, [NestedMask.Filter] clears every
    field whose name the mask does not hold at this level (the message no
    longer has it), and a field whose node in the mask is a leaf keeps the
    very value it had, whatever its kind. *)
Theorem C5_exact_filter_absent_leaf (mask : NestedMask) (msg msg' : Message)
    (Hmask : len mask ≠ 0%nat)
    (Hrun : NestedMask_Filter mask msg = Done msg') :
  forall name : string,
    (mask !! name = None -> Has msg' name = false) /\
    (forall m, mask !! name = Some m -> len m = 0%nat ->
               Get msg' name = Get msg name).
Proof.
  intros name. apply NestedMask_Filter_Done in Hrun; [|exact Hmask].
  pose proof (Filter_field_steady NestedMask_Filter mask) as Hs.
  split.
  - intros Hnone. apply Has_false.
    apply (Range_cleared populated _ Hs name _ _ Hrun).
    intros v b r _ _. unfold Filter_field. rewrite Hnone. now intros [= _ <-].
  - intros m Hm Hleaf. unfold Get.
    apply (Range_assoc_kept populated _ name _ _ Hs); [|exact Hrun].
    intros v b r. unfold Filter_field. rewrite Hm, Hleaf. simpl.
    now intros [= _ <-].
Qed.

Lemma C5_exact_filter_absent_leaf_witness :
  Has (Msg [("user", user)]) "photo" = false /\
  Get (Msg [("user", user)]) "user" = Get profile "user".
Proof.
  pose proof (C5_exact_filter_absent_leaf (NestedMaskFromPaths ["user"])
                profile (Msg [("user", user)])) as H.
  assert (H1 : len (NestedMaskFromPaths ["user"]) ≠ 0%nat)
    by (vm_compute; discriminate).
  assert (H2 : NestedMask_Filter (NestedMaskFromPaths ["user"]) profile
               = Done (Msg [("user", user)])) by (vm_compute; reflexivity).
  split.
  - apply (H H1 H2 "photo"). vm_compute. reflexivity.
  - apply (proj2 (H H1 H2 "user") make); vm_compute; reflexivity.
Defined.

(** C6. With a mask that is not empty, [NestedMask.Prune] leaves a field
    whose name the mask does not hold at this level with the value it had,
    and clears every field whose node in the mask is a leaf; on
    [{user:{id:1,name:"n"}, photo:{id:2}}] with the mask of ["user"] it
    yields [{photo:{id:2}}]. *)
Theorem C6_exact_prune_absent_leaf (mask : NestedMask) (msg msg' : Message)
    (Hmask : len mask ≠ 0%nat)
    (Hrun : NestedMask_Prune mask msg = Done msg') :
  (forall name : string,
    (mask !! name = None -> Get msg' name = Get msg name) /\
    (forall m, mask !! name = Some m -> len m = 0%nat ->
               Has msg' name = false)) /\
  Prune profile ["user"] = Done (Msg [("photo", photo)]).
Proof.
  split; [|vm_compute; reflexivity].
  intros name. apply NestedMask_Prune_Done in Hrun; [|exact Hmask].
  pose proof (Prune_field_steady NestedMask_Prune mask) as Hs.
  split.
  - intros Hnone. unfold Get.
    apply (Range_assoc_kept populated _ name _ _ Hs); [|exact Hrun].
    intros v b r. unfold Prune_field. rewrite Hnone. now intros [= _ <-].
  - intros m Hm Hleaf. apply Has_false.
    apply (Range_cleared populated _ Hs name _ _ Hrun).
    intros v b r _ _. unfold Prune_field. rewrite Hm, Hleaf. simpl.
    now intros [= _ <-].
Qed.

Lemma C6_exact_prune_absent_leaf_witness :
  Get (Msg [("photo", photo)]) "photo" = Get profile "photo" /\
  Has (Msg [("photo", photo)]) "user" = false.
Proof.
  pose proof (C6_exact_prune_absent_leaf (NestedMaskFromPaths ["user"])
                profile (Msg [("photo", photo)])) as H.
  assert (H1 : len (NestedMaskFromPaths ["user"]) ≠ 0%nat)
    by (vm_compute; discriminate).
  assert (H2 : NestedMask_Prune (NestedMaskFromPaths ["user"]) profile
               = Done (Msg [("photo", photo)])) by (vm_compute; reflexivity).
  destruct (H H1 H2) as [Hall _]. split.
  - apply (Hall "photo"). vm_compute. reflexivity.
  - apply (proj2 (Hall "user") make); vm_compute; reflexivity.
Defined.

(** C7. With the empty mask, filter and prune hand the message back as it
    was, in the exact and in the wildcard engine, through the mask methods
    and through the wrappers that build the mask from an empty path list. *)
Theorem C7_empty_mask_identity (X : Message) :
  NestedMask_Filter make X = Done X /\
  NestedMask_Prune make X = Done X /\
  WildcardNestedMask_Filter make X = Done X /\
  WildcardNestedMask_Prune make X = Done X /\
  Filter X [] = Done X /\ Prune X [] = Done X /\
  WildcardFilter X [] = Done X /\ WildcardPrune X [] = Done X.
Proof.
  destruct X as [fs]. repeat split; reflexivity.
Qed.

Lemma lookup_Some_len (mask c : NestedMask) (k : string) :
  mask !! k = Some c -> len mask ≠ 0%nat.
Proof.
  intros Hk Hz. apply len_zero_iff in Hz. subst mask.
  rewrite lookup_make in Hk. discriminate.
Qed.

Lemma len_eqb_false (mask : NestedMask) :
  len mask ≠ 0%nat -> (len mask =? 0)%nat = false.
Proof. intros H. now apply Nat.eqb_neq. Qed.

Lemma assoc_In {K : Type} `{EqDecision K} (key : K)
    (items : list (K * Value)) (v : Value) :
  assoc key items = Some v -> In (key, v) items.
Proof.
  induction items as [|[k v0] rest IH]; simpl; [discriminate|].
  destruct (decide (k = key)) as [->|_].
  - intros [= ->]. now left.
  - intros H. right. now apply IH.
Qed.

Lemma assoc_None {K : Type} `{EqDecision K} (key : K)
    (items : list (K * Value)) :
  (forall v, ~ In (key, v) items) -> assoc key items = None.
Proof.
  intros H. destruct (assoc key items) as [v|] eqn:E; [|reflexivity].
  apply assoc_In in E. now apply H in E.
Qed.

(** C10. Take a map field none of whose values is a message, and a mask
    that holds, under the field's name, a subtree with a node that is not a
    leaf for the string of one of the map's keys.  [NestedMask.Prune] clears
    that entry, [NestedMask.Filter] keeps it with the value it had. *)
Theorem C10_map_of_scalars_nonleaf_key
    (mask m mi : NestedMask) (msg : Message) (name : string)
    (entries : list (MapKey * Value)) (mk : MapKey) (mv : Value)
    (Hm : mask !! name = Some m)
    (Hmi : m !! MapKey_String mk = Some mi)
    (Hnonleaf : len mi ≠ 0%nat)
    (Hfield : Get msg name = Some (VMap entries))
    (Hvalues : Forall (fun e => is_message (snd e) = false) entries)
    (Hentry : Map_Get entries mk = Some mv) :
  (forall msg', NestedMask_Prune mask msg = Done msg' ->
     exists entries', Get msg' name = Some (VMap entries') /\
                      Map_Get entries' mk = None) /\
  (forall msg', NestedMask_Filter mask msg = Done msg' ->
     exists entries', Get msg' name = Some (VMap entries') /\
                      Map_Get entries' mk = Some mv).
Proof.
  pose proof (lookup_Some_len _ _ _ Hm) as Hmask.
  pose proof (len_eqb_false _ (lookup_Some_len _ _ _ Hmi)) as Hlen.
  assert (Hpop : populated (VMap entries) = true).
  { destruct entries; [discriminate Hentry | reflexivity]. }
  assert (Hscalar : forall v, In (mk, v) entries -> is_message v = false).
  { intros v Hin. rewrite Forall_forall in Hvalues.
    apply (Hvalues (mk, v)). now apply list_elem_of_In. }
  split; intros msg' Hrun.
  - apply NestedMask_Prune_Done in Hrun; [|exact Hmask].
    pose proof (Range_assoc populated _ (Prune_field_steady _ mask)
                  name _ _ _ Hrun Hfield) as H.
    rewrite Hpop in H. destruct H as (r & Hf & H).
    unfold Prune_field in Hf. rewrite Hm, Hlen in Hf.
    run_inv Hf. inversion Hf; subst r. exists a. split; [now apply H|].
    apply assoc_None. intros v Hin.
    pose proof (Range_cleared (fun _ => true) _ (Prune_entry_steady _ m)
                  mk _ _ E) as Hc.
    enough (true = false) by discriminate.
    apply (Hc) with (v := v); [|exact Hin].
    intros v0 b r Hin0 _. unfold Prune_entry. rewrite Hmi.
    specialize (Hscalar v0 Hin0).
    destruct v0; try discriminate Hscalar; now intros [= _ <-].
  - apply NestedMask_Filter_Done in Hrun; [|exact Hmask].
    pose proof (Range_assoc populated _ (Filter_field_steady _ mask)
                  name _ _ _ Hrun Hfield) as H.
    rewrite Hpop in H. destruct H as (r & Hf & H).
    unfold Filter_field in Hf. rewrite Hm, Hlen in Hf.
    run_inv Hf. inversion Hf; subst r. exists a. split; [now apply H|].
    pose proof (Range_assoc (fun _ => true) _ (Filter_entry_steady _ m)
                  mk _ _ _ E Hentry) as (r & Hr & Hkeep).
    apply Hkeep. unfold Filter_entry in Hr. rewrite Hmi in Hr.
    specialize (Hscalar mv (assoc_In _ _ _ Hentry)).
    destruct mv; try discriminate Hscalar; now inversion Hr.
Qed.

Lemma C10_map_of_scalars_nonleaf_key_witness :
  (exists entries',
      Get (Msg [("tags", VMap [(KString "t2", VScalar (SString "2"));
                               (KString "t3", VScalar (SString "3"))])]) "tags"
      = Some (VMap entries') /\ Map_Get entries' (KString "t1") = None) /\
  (exists entries',
      Get (Msg [("tags", VMap [(KString "t1", VScalar (SString "1"))])]) "tags"
      = Some (VMap entries') /\
      Map_Get entries' (KString "t1") = Some (VScalar (SString "1"))).
Proof.
  pose proof (C10_map_of_scalars_nonleaf_key
                (NestedMaskFromPaths ["tags.t1.x"])
                (Mask {[ "t1" := Mask {[ "x" := make ]} ]})
                (Mask {[ "x" := make ]})
                (Msg [("tags", tags)]) "tags"
                [(KString "t1", VScalar (SString "1"));
                 (KString "t2", VScalar (SString "2"));
                 (KString "t3", VScalar (SString "3"))]
                (KString "t1") (VScalar (SString "1"))) as H.
  destruct H as [HP HF].
  - vm_compute. reflexivity.
  - vm_compute. reflexivity.
  - vm_compute. discriminate.
  - reflexivity.
  - repeat constructor.
  - reflexivity.
  - split.
    + apply HP. vm_compute. reflexivity.
    + apply HF. vm_compute. reflexivity.
Defined.

(** ** Filtering twice *)

Lemma List_each_idem (f : Message -> Run Message) (elems elems' : list Value) :
  Forall (on_message (fun x => forall x', f x = Done x' -> f x' = Done x')) elems ->
  List_each f elems = Done elems' -> List_each f elems' = Done elems'.
Proof.
  intros Hall. revert elems'.
  induction Hall as [|e rest He _ IH]; intros elems' HR; simpl in HR.
  - now inversion HR.
  - destruct e as [s|x|l|es]; try discriminate HR.
    run_inv HR. run_inv HR. inversion HR. simpl.
    rewrite (He _ E). simpl. now rewrite (IH _ E0).
Qed.

Lemma NestedMask_Filter_idem (msg : Message) :
  forall (mask : NestedMask) (msg' : Message),
    NestedMask_Filter mask msg = Done msg' ->
    NestedMask_Filter mask msg' = Done msg'.
Proof.
  induction msg as [fs IH] using Message_induction.
  intros mask msg' HR.
  destruct (Nat.eq_dec (len mask) 0) as [Hz|Hnz].
  { simpl in HR. rewrite Hz in HR. simpl in HR. inversion HR. subst msg'.
    simpl. now rewrite Hz. }
  pose proof (NestedMask_Filter_Done _ _ _ Hnz HR) as HRange.
  destruct msg' as [fs']. simpl in HRange.
  rewrite NestedMask_Filter_unfold, (len_eqb_false _ Hnz).
  unfold Message_Range in *.
  rewrite (Range_idem populated _ (Filter_field_steady _ mask) _ _ HRange);
    [reflexivity|].
  eapply Forall_impl; [exact IH|]. clear HR HRange fs fs' IH.
  intros [name v] Hin v' _. simpl in Hin |- *. unfold Filter_field.
  destruct (mask !! name) as [m|]; [|discriminate].
  destruct (len m =? 0)%nat; [now intros [= <-]|].
  destruct v as [s|x|elems|entries]; simpl in Hin.
  - now intros [= <-].
  - intros Hf _. run_inv Hf. inversion Hf; subst v'.
    now rewrite (Hin _ _ E).
  - intros Hf _. run_inv Hf. inversion Hf; subst v'.
    rewrite (List_each_idem (NestedMask_Filter m) elems a); [reflexivity| |exact E].
    eapply Forall_impl; [exact Hin|]. intros [| | |] Hx; simpl in *; auto.
  - intros Hf _. run_inv Hf. inversion Hf; subst v'.
    unfold Map_Range in *.
    rewrite (Range_idem (fun _ => true) _ (Filter_entry_steady _ m) _ _ E);
      [reflexivity|].
    eapply Forall_impl; [exact Hin|]. clear.
    intros [mk mv] Hmv w _. simpl in *. unfold Filter_entry.
    destruct (m !! MapKey_String mk) as [mi|]; [|discriminate].
    destruct mv as [s|i|l|es]; try (now intros [= <-]).
    destruct (0 <? len mi)%nat eqn:Hlen.
    + intros Hf _. run_inv Hf. inversion Hf; subst w.
      cbn iota beta. now rewrite (Hmv _ _ E).
    + now intros [= <-].
Qed.

(** ** The wildcard engine hands every message back as it was *)

Lemma List_each_same (f : Message -> Run Message) (elems elems' : list Value) :
  (forall x x', f x = Done x' -> x' = x) ->
  List_each f elems = Done elems' -> elems' = elems.
Proof.
  intros Hf. revert elems'.
  induction elems as [|e rest IH]; intros elems' HR; simpl in HR.
  - now inversion HR.
  - destruct e as [s|x|l|es]; try discriminate HR.
    run_inv HR. run_inv HR. inversion HR.
    apply Hf in E as ->. now rewrite (IH _ E0).
Qed.

Section WildcardFacts.
Variable F : WildcardNestedMask -> Message -> Run Message.

Lemma filterMapKey_true mask mk mv wildcard b mv' :
  filterMapKey F mask mk mv wildcard = Done (b, mv') -> b = true.
Proof.
  unfold filterMapKey, Run_bind.
  repeat case_match; intros; simplify_eq; reflexivity.
Qed.

Lemma filterField_true mask name v wildcard pruning b v' :
  filterField F mask name v wildcard pruning = Done (b, v') -> b = true.
Proof.
  unfold filterField, Run_bind.
  repeat case_match; intros; simplify_eq; reflexivity.
Qed.

Hypothesis F_same : forall m x x', F m x = Done x' -> x' = x.

Lemma filterMapKey_same mask mk mv wildcard b mv' :
  filterMapKey F mask mk mv wildcard = Done (b, mv') -> mv' = mv.
Proof.
  unfold filterMapKey.
  destruct (mask !! (if wildcard then "*" else MapKey_String mk)) as [m|];
    [|now intros [= _ <-]].
  destruct mv as [s|i|l|es]; try (now intros [= _ <-]).
  destruct (0 <? len m)%nat; [|now intros [= _ <-]].
  intros H. run_inv H. inversion H. now apply F_same in E as ->.
Qed.

Lemma filterField_same mask name v wildcard b v' :
  filterField F mask name v wildcard false = Done (b, v') -> v' = v.
Proof.
  unfold filterField.
  destruct (mask !! (if wildcard then "*" else name)) as [m|];
    [|now intros [= _ <-]].
  destruct (len m =? 0)%nat; [now intros [= _ <-]|].
  destruct v as [s|x|elems|entries].
  - now intros [= _ <-].
  - intros H. run_inv H. inversion H. now apply F_same in E as ->.
  - intros H. run_inv H. inversion H.
    now apply List_each_same in E as ->; [|apply F_same].
  - intros H. run_inv H. inversion H. f_equal.
    eapply Range_same; [|exact E].
    intros mk mv c r Hc. run_inv Hc. destruct a0 as [b1 mv1].
    pose proof (filterMapKey_true _ _ _ _ _ _ E0) as ->.
    apply filterMapKey_same in E0 as ->. now inversion Hc.
Qed.

Lemma Filter_body_same mask msg msg' :
  Filter_body F mask msg = Done msg' -> msg' = msg.
Proof.
  unfold Filter_body. destruct (len mask =? 0)%nat; [now intros [= <-]|].
  intros H. run_inv H. inversion H. destruct msg as [fs]. f_equal.
  eapply Range_same; [|exact E].
  intros name v c r Hc. run_inv Hc. destruct a0 as [b1 v1].
  pose proof (filterField_true _ _ _ _ _ _ _ E0) as ->.
  apply filterField_same in E0 as ->. now inversion Hc.
Qed.
End WildcardFacts.

Lemma Filter_fuel_same (fuel : nat) :
  forall mask msg msg', Filter_fuel fuel mask msg = Done msg' -> msg' = msg.
Proof.
  induction fuel as [|fuel IH]; intros mask msg msg' H; simpl in H.
  - discriminate.
  - now apply (Filter_body_same (Filter_fuel fuel) IH) in H.
Qed.

Lemma WildcardNestedMask_Filter_same (mask : WildcardNestedMask)
    (msg msg' : Message) :
  WildcardNestedMask_Filter mask msg = Done msg' -> msg' = msg.
Proof. apply Filter_fuel_same. Qed.

(** C9. Filtering a filtered message with the same mask changes nothing:
    running [Filter] again on the result of [Filter] ends as the first run
    did, with the same message, in the exact and in the wildcard engine. *)
Theorem C9_filter_idempotent (M : NestedMask) (X : Message) :
  (let* X' := NestedMask_Filter M X in NestedMask_Filter M X')
  = NestedMask_Filter M X /\
  (let* X' := WildcardNestedMask_Filter M X in WildcardNestedMask_Filter M X')
  = WildcardNestedMask_Filter M X.
Proof.
  split.
  - destruct (NestedMask_Filter M X) as [X'| |] eqn:E; simpl; try reflexivity.
    now apply (NestedMask_Filter_idem X).
  - destruct (WildcardNestedMask_Filter M X) as [X'| |] eqn:E; simpl;
      try reflexivity.
    pose proof (WildcardNestedMask_Filter_same _ _ _ E) as ->. exact E.
Qed.

(** ** The fuel of the wildcard engine is enough *)

Lemma foldr_max_le {A : Type} (d : A -> nat) (x : A) (l : list A) :
  In x l -> d x <= foldr (fun y n => Nat.max (d y) n) O l.
Proof.
  induction l as [|y l IH]; simpl; [intros []|].
  intros [->|Hin]; [lia|]. specialize (IH Hin). lia.
Qed.

Lemma field_depth (fs : list (string * Value)) (name : string) (v : Value) :
  In (name, v) fs -> Value_depth v < Message_depth (Msg fs).
Proof.
  intros Hin. simpl.
  pose proof (foldr_max_le (fun f => Value_depth (snd f)) _ _ Hin). simpl in *. lia.
Qed.

Lemma elem_depth (elems : list Value) (e : Value) :
  In e elems -> Value_depth e <= Value_depth (VList elems).
Proof. intros Hin. simpl. exact (foldr_max_le Value_depth _ _ Hin). Qed.

Lemma entry_depth (entries : list (MapKey * Value)) (mk : MapKey) (e : Value) :
  In (mk, e) entries -> Value_depth e <= Value_depth (VMap entries).
Proof.
  intros Hin. simpl.
  exact (foldr_max_le (fun f => Value_depth (snd f)) _ _ Hin).
Qed.

Lemma Range_ext_in {K : Type} present (f g : K -> Value -> Run (bool * Kept))
    (items : list (K * Value)) :
  (forall k v, In (k, v) items -> f k v = g k v) ->
  Range present f items = Range present g items.
Proof.
  induction items as [|[k v] rest IH]; intros H; simpl; [reflexivity|].
  rewrite (H k v) by now left.
  rewrite IH; [reflexivity|]. intros k' v' Hin. apply H. now right.
Qed.

Lemma Range_fuel {K : Type} present (f : K -> Value -> Run (bool * Kept))
    (items : list (K * Value)) :
  (forall k v, In (k, v) items -> f k v ≠ OutOfFuel) ->
  Range present f items ≠ OutOfFuel.
Proof.
  induction items as [|[k v] rest IH]; intros H; simpl; [discriminate|].
  assert (Hrest : Range present f rest ≠ OutOfFuel).
  { apply IH. intros k' v' Hin. apply H. now right. }
  specialize (H k v (or_introl eq_refl)).
  destruct (present v).
  - destruct (f k v) as [[b r]| |]; simpl; [|discriminate|contradiction].
    destruct b; [|discriminate].
    destruct (Range present f rest); simpl; [discriminate|discriminate|contradiction].
  - destruct (Range present f rest); simpl; [discriminate|discriminate|contradiction].
Qed.

Lemma List_each_ext_in (f g : Message -> Run Message) (elems : list Value) :
  (forall x, In (VMessage x) elems -> f x = g x) ->
  List_each f elems = List_each g elems.
Proof.
  induction elems as [|e rest IH]; intros H; simpl; [reflexivity|].
  destruct e as [s|x|l|es]; try reflexivity.
  rewrite (H x) by now left.
  rewrite IH; [reflexivity|]. intros x' Hin. apply H. now right.
Qed.

Lemma List_each_fuel (f : Message -> Run Message) (elems : list Value) :
  (forall x, In (VMessage x) elems -> f x ≠ OutOfFuel) ->
  List_each f elems ≠ OutOfFuel.
Proof.
  induction elems as [|e rest IH]; intros H; simpl; [discriminate|].
  destruct e as [s|x|l|es]; try discriminate.
  assert (Hrest : List_each f rest ≠ OutOfFuel).
  { apply IH. intros x' Hin. apply H. now right. }
  specialize (H x (or_introl eq_refl)).
  destruct (f x); simpl; [|discriminate|contradiction].
  destruct (List_each f rest); simpl; [discriminate|discriminate|contradiction].
Qed.

Section WildcardFuel.
Variables F G : WildcardNestedMask -> Message -> Run Message.
Variable d : nat.

(** [F] and [G] agree, and [F] has fuel left, on the messages of depth
    at most [d]. *)
Hypothesis F_G : forall m x, Message_depth x <= d -> F m x = G m x.
Hypothesis F_fuel : forall m x, Message_depth x <= d -> F m x ≠ OutOfFuel.

Lemma filterMapKey_ext mask mk mv wildcard :
  Value_depth mv <= d ->
  filterMapKey F mask mk mv wildcard = filterMapKey G mask mk mv wildcard.
Proof.
  intros Hd. unfold filterMapKey.
  destruct (mask !! _) as [m|]; [|reflexivity].
  destruct mv as [s|i|l|es]; try reflexivity.
  destruct (0 <? len m)%nat; [|reflexivity]. now rewrite F_G.
Qed.

Lemma filterMapKey_fuel mask mk mv wildcard :
  Value_depth mv <= d ->
  filterMapKey F mask mk mv wildcard ≠ OutOfFuel.
Proof.
  intros Hd. unfold filterMapKey.
  destruct (mask !! _) as [m|]; [|discriminate].
  destruct mv as [s|i|l|es]; try discriminate.
  destruct (0 <? len m)%nat; [|discriminate].
  pose proof (F_fuel m i Hd).
  destruct (F m i); simpl; [discriminate|discriminate|contradiction].
Qed.

Lemma filterField_ext mask name v wildcard pruning :
  Value_depth v <= d ->
  filterField F mask name v wildcard pruning
  = filterField G mask name v wildcard pruning.
Proof.
  intros Hd. unfold filterField.
  destruct (mask !! _) as [m|]; [|reflexivity].
  destruct (len m =? 0)%nat; [reflexivity|].
  destruct v as [s|x|elems|entries]; try reflexivity.
  - now rewrite F_G.
  - rewrite (List_each_ext_in (F m) (G m)); [reflexivity|].
    intros x Hin. apply F_G. apply elem_depth in Hin. simpl in *. lia.
  - unfold Map_Range. erewrite Range_ext_in; [reflexivity|].
    intros mk mv Hin. cbn beta.
    rewrite filterMapKey_ext by (apply entry_depth in Hin; lia).
    destruct (filterMapKey G mask mk mv false) as [[b mv1]| |] eqn:E;
      simpl; try reflexivity.
    now rewrite (filterMapKey_true _ _ _ _ _ _ _ E).
Qed.

Lemma filterField_fuel mask name v wildcard pruning :
  Value_depth v <= d ->
  filterField F mask name v wildcard pruning ≠ OutOfFuel.
Proof.
  intros Hd. unfold filterField.
  destruct (mask !! _) as [m|]; [|discriminate].
  destruct (len m =? 0)%nat; [discriminate|].
  destruct v as [s|x|elems|entries]; try discriminate.
  - pose proof (F_fuel m x Hd).
    destruct (F m x); simpl; [discriminate|discriminate|contradiction].
  - assert (H : List_each (F m) elems ≠ OutOfFuel).
    { apply List_each_fuel. intros x Hin. apply F_fuel.
      apply elem_depth in Hin. simpl in *. lia. }
    destruct (List_each (F m) elems); simpl;
      [discriminate|discriminate|contradiction].
  - match goal with |- Run_bind ?r _ ≠ _ =>
      assert (H : r ≠ OutOfFuel); [|destruct r; simpl;
        [discriminate|discriminate|contradiction]] end.
    apply Range_fuel. intros mk mv Hin.
    pose proof (filterMapKey_fuel mask mk mv false
                  ltac:(apply entry_depth in Hin; lia)) as H.
    destruct (filterMapKey F mask mk mv false) as [[b mv1]| |] eqn:E;
      simpl; [|discriminate|contradiction].
    rewrite (filterMapKey_true _ _ _ _ _ _ _ E). discriminate.
Qed.

Lemma Filter_body_ext mask msg :
  Message_depth msg <= S d ->
  Filter_body F mask msg = Filter_body G mask msg.
Proof.
  intros Hd. unfold Filter_body.
  destruct (len mask =? 0)%nat; [reflexivity|].
  unfold Message_Range. erewrite Range_ext_in; [reflexivity|].
  intros name v Hin. cbn beta.
  assert (Hv : Value_depth v <= d).
  { destruct msg as [fs]. apply field_depth in Hin. simpl in *. lia. }
  rewrite filterField_ext by exact Hv.
  destruct (filterField G mask name v false false) as [[b v1]| |] eqn:E;
    simpl; try reflexivity.
  now rewrite (filterField_true _ _ _ _ _ _ _ _ E).
Qed.

Lemma Filter_body_fuel mask msg :
  Message_depth msg <= S d ->
  Filter_body F mask msg ≠ OutOfFuel.
Proof.
  intros Hd. unfold Filter_body.
  destruct (len mask =? 0)%nat; [discriminate|].
  match goal with |- Run_bind ?r _ ≠ _ =>
    assert (H : r ≠ OutOfFuel); [|destruct r; simpl;
      [discriminate|discriminate|contradiction]] end.
  apply Range_fuel. intros name v Hin.
  assert (Hv : Value_depth v <= d).
  { destruct msg as [fs]. apply field_depth in Hin. simpl in *. lia. }
  pose proof (filterField_fuel mask name v false false Hv) as H.
  destruct (filterField F mask name v false false) as [[b v1]| |] eqn:E;
    simpl; [|discriminate|contradiction].
  rewrite (filterField_true _ _ _ _ _ _ _ _ E). discriminate.
Qed.

Lemma Prune_body_fuel mask msg :
  Message_depth msg <= S d ->
  Prune_body F mask msg ≠ OutOfFuel.
Proof.
  intros Hd. unfold Prune_body.
  destruct (len mask =? 0)%nat; [discriminate|].
  match goal with |- Run_bind ?r _ ≠ _ =>
    assert (H : r ≠ OutOfFuel); [|destruct r; simpl;
      [discriminate|discriminate|contradiction]] end.
  apply Range_fuel. intros name v Hin.
  assert (Hv : Value_depth v <= d).
  { destruct msg as [fs]. apply field_depth in Hin. simpl in *. lia. }
  pose proof (filterField_fuel mask name v false true Hv) as H.
  destruct (filterField F mask name v false true) as [[b v1]| |] eqn:E;
    simpl; [|discriminate|contradiction].
  rewrite (filterField_true _ _ _ _ _ _ _ _ E). discriminate.
Qed.
End WildcardFuel.

Lemma Message_depth_pos (msg : Message) : 0 < Message_depth msg.
Proof. destruct msg. simpl. lia. Qed.

Lemma Filter_fuel_stable (n : nat) :
  forall n' mask msg,
    Message_depth msg <= n -> Message_depth msg <= n' ->
    Filter_fuel n mask msg = Filter_fuel n' mask msg.
Proof.
  induction n as [|n IH]; intros n' mask msg Hn Hn'.
  - pose proof (Message_depth_pos msg). lia.
  - destruct n' as [|n']; [pose proof (Message_depth_pos msg); lia|]. simpl.
    destruct (Message_depth msg) as [|d] eqn:Hd;
      [pose proof (Message_depth_pos msg); lia|].
    apply (Filter_body_ext _ _ d); [|lia].
    intros m x Hx. apply IH; lia.
Qed.

(** The wildcard [Filter] satisfies the equation the source defines it
    by: its body, with [Filter] itself for the calls on subtrees. *)
Lemma WildcardNestedMask_Filter_unfold (mask : WildcardNestedMask)
    (msg : Message) :
  WildcardNestedMask_Filter mask msg
  = Filter_body WildcardNestedMask_Filter mask msg.
Proof.
  unfold WildcardNestedMask_Filter at 1.
  destruct (Message_depth msg) as [|d] eqn:Hd;
    [pose proof (Message_depth_pos msg); lia|]. simpl.
  apply (Filter_body_ext _ _ d); [|lia].
  intros m x Hx. unfold WildcardNestedMask_Filter.
  apply Filter_fuel_stable; lia.
Qed.

Lemma Filter_fuel_enough (n : nat) :
  forall mask msg, Message_depth msg <= n -> Filter_fuel n mask msg ≠ OutOfFuel.
Proof.
  induction n as [|n IH]; intros mask msg Hn.
  - pose proof (Message_depth_pos msg). lia.
  - simpl. destruct n as [|d].
    + apply (Filter_body_fuel _ 0); [|exact Hn].
      intros m x Hx. pose proof (Message_depth_pos x). lia.
    + apply (Filter_body_fuel _ (S d)); [|exact Hn].
      intros m x Hx. now apply IH.
Qed.

(** Both wildcard methods end by returning or by panicking: the fuel never
    runs out. *)
Lemma Wildcard_total (mask : WildcardNestedMask) (msg : Message) :
  WildcardNestedMask_Filter mask msg ≠ OutOfFuel /\
  WildcardNestedMask_Prune mask msg ≠ OutOfFuel.
Proof.
  split.
  - now apply Filter_fuel_enough.
  - apply (Prune_body_fuel _ (Message_depth msg)); [|lia].
    intros m x _. now apply Filter_fuel_enough.
Qed.

(** ** The wildcard engine on the messages of the tests *)

(** C1. The wildcard mask of ["user"] holds neither [photo] nor [*], and
    [WildcardNestedMask.Filter] with it returns the profile with [photo]
    still set: the field is not cleared. *)
Theorem C1_wildcard_filter_keeps_unmatched :
  WildcardNestedMaskFromPaths ["user"] !! "photo" = None /\
  WildcardNestedMaskFromPaths ["user"] !! "*" = None /\
  WildcardFilter profile ["user"] = Done profile /\
  Has profile "photo" = true.
Proof. repeat split; vm_compute; reflexivity. Qed.

(** C2. The wildcard mask of ["user"] holds neither [photo] nor [*], and
    [WildcardNestedMask.Prune] with it clears [photo] along with [user]:
    the message comes back without fields. *)
Theorem C2_wildcard_prune_clears_unmatched :
  WildcardNestedMaskFromPaths ["user"] !! "photo" = None /\
  WildcardNestedMaskFromPaths ["user"] !! "*" = None /\
  Get profile "photo" = Some photo /\
  WildcardPrune profile ["user"] = Done (Msg []).
Proof. repeat split; vm_compute; reflexivity. Qed.

(** C3. With the wildcard mask of ["user.name"], whose node for [user] is
    not a leaf, [WildcardNestedMask.Prune] clears the whole field [user] of
    [{user:{user_id:1,name:"n"}}]; the exact [Prune] with the same paths
    clears [name] inside it and keeps [user_id]. *)
Theorem C3_wildcard_prune_clears_nonleaf_field :
  (exists m, WildcardNestedMaskFromPaths ["user.name"] !! "user" = Some m /\
             len m ≠ 0%nat) /\
  WildcardPrune (Msg [("user", user)]) ["user.name"] = Done (Msg []) /\
  Prune (Msg [("user", user)]) ["user.name"]
  = Done (Msg [("user", VMessage (Msg [("user_id", VScalar (SInt 1))]))]).
Proof.
  split; [|split; vm_compute; reflexivity].
  exists (Mask {[ "name" := make ]}). split; vm_compute; [reflexivity|discriminate].
Qed.

(** C4. [WildcardNestedMask.Filter] with the mask of ["attrs.*.tags.t1"]
    returns the map [attrs] with the entries [a1], [a2], [a3] as they were,
    each with the tags [t1], [t2], [t3]; none is trimmed to [{tags:{t1}}]. *)
Theorem C4_wildcard_filter_map_untrimmed :
  WildcardFilter attrs ["attrs.*.tags.t1"] = Done attrs /\
  attrs ≠ Msg [("attrs", VMap [(KString "a1", only_tag "t1" "1");
                               (KString "a2", only_tag "t1" "1");
                               (KString "a3", only_tag "t1" "1")])].
Proof. split; [vm_compute; reflexivity | discriminate]. Qed.

(** ** The exact engine needs no fuel *)

Lemma Run_bind_fuel {A B : Type} (r : Run A) (k : A -> Run B) :
  r ≠ OutOfFuel -> (forall a, r = Done a -> k a ≠ OutOfFuel) ->
  Run_bind r k ≠ OutOfFuel.
Proof.
  intros Hr Hk. destruct r as [a| |]; simpl;
    [now apply Hk | discriminate | contradiction].
Qed.

Section ExactFuel.
Variable recurse : NestedMask -> Message -> Run Message.

Lemma exact_field_fuel (entry field : NestedMask -> _ -> Value -> Run (bool * Kept))
    (mask : NestedMask) (name : string) (v : Value) :
  (entry = Filter_entry recurse /\ field = Filter_field recurse) \/
  (entry = Prune_entry recurse /\ field = Prune_field recurse) ->
  inside (fun x => forall m, recurse m x ≠ OutOfFuel) v ->
  field mask name v ≠ OutOfFuel.
Proof.
  intros Hwhich Hin.
  assert (Hentry : forall m mk mv,
             on_message (fun x => forall m, recurse m x ≠ OutOfFuel) mv ->
             entry m mk mv ≠ OutOfFuel).
  { intros m mk mv Hmv.
    destruct Hwhich as [[-> _]|[-> _]]; unfold Filter_entry, Prune_entry;
      (destruct (m !! MapKey_String mk) as [mi|]; [|discriminate]);
      (destruct mv as [s|i|l|es]; try discriminate);
      (destruct (0 <? len mi)%nat; [|discriminate]);
      (apply Run_bind_fuel; [apply Hmv | discriminate]). }
  assert (Hbody : forall m,
     match v with
     | VMap entries =>
         let* entries' := Map_Range (entry m) entries in
         Done (true, Some (VMap entries'))
     | VList elems =>
         let* elems' := List_each (recurse m) elems in
         Done (true, Some (VList elems'))
     | VMessage x =>
         let* x' := recurse m x in
         Done (true, Some (VMessage x'))
     | VScalar _ => Done (true, Some v)
     end ≠ OutOfFuel).
  { intros m. destruct v as [s|x|elems|entries]; simpl in Hin.
    - discriminate.
    - apply Run_bind_fuel; [apply Hin | discriminate].
    - apply Run_bind_fuel; [|discriminate].
      apply List_each_fuel. intros x Hx. rewrite Forall_forall in Hin.
      apply list_elem_of_In in Hx. exact (Hin _ Hx m).
    - apply Run_bind_fuel; [|discriminate].
      apply Range_fuel. intros mk mv Hmv. apply Hentry.
      rewrite Forall_forall in Hin. apply list_elem_of_In in Hmv.
      exact (Hin _ Hmv). }
  destruct Hwhich as [[-> ->]|[-> ->]]; unfold Filter_field, Prune_field;
    (destruct (mask !! name) as [m|]; [|discriminate]);
    (destruct (len m =? 0)%nat; [discriminate|]); apply Hbody.
Qed.
End ExactFuel.

(** The exact [Filter] and [Prune] end by returning or by panicking. *)
Lemma Exact_total (msg : Message) :
  forall mask : NestedMask,
    NestedMask_Filter mask msg ≠ OutOfFuel /\
    NestedMask_Prune mask msg ≠ OutOfFuel.
Proof.
  induction msg as [fs IH] using Message_induction. intros mask.
  split; simpl; (destruct (len mask =? 0)%nat; [discriminate|]);
    (apply Run_bind_fuel; [|discriminate]);
    apply Range_fuel; intros name v Hin;
    rewrite Forall_forall in IH; apply list_elem_of_In in Hin;
    specialize (IH _ Hin); simpl in IH.
  - eapply exact_field_fuel; [left; split; reflexivity|].
    destruct v as [s|x|elems|entries]; simpl in *; auto.
    + intros m. apply IH.
    + eapply Forall_impl; [exact IH|].
      intros [| | |]; simpl; auto. intros H m0. apply H.
    + eapply Forall_impl; [exact IH|].
      intros [k [| | |]]; simpl; auto. intros H m0. apply H.
  - eapply exact_field_fuel; [right; split; reflexivity|].
    destruct v as [s|x|elems|entries]; simpl in *; auto.
    + intros m. apply IH.
    + eapply Forall_impl; [exact IH|].
      intros [| | |]; simpl; auto. intros H m0. apply H.
    + eapply Forall_impl; [exact IH|].
      intros [k [| | |]]; simpl; auto. intros H m0. apply H.
Qed.

(** * Further properties of the code *)

(** ** The builder *)

Lemma segments_nil (path letters : string) :
  segments path letters = [] <-> letters = EmptyString /\ only_dots path = true.
Proof.
  revert letters. induction path as [|c rest IH]; intros letters; simpl.
  - destruct letters; split; try tauto; try discriminate.
    intros [H _]. discriminate H.
  - destruct (Ascii.eqb c "."%char); simpl.
    + destruct letters as [|a l].
      * rewrite IH. tauto.
      * split; [discriminate|]. intros [H _]. discriminate H.
    + rewrite IH. split; [|intros [_ H]; discriminate H].
      intros [H _]. destruct letters; discriminate H.
Qed.

Lemma has_path_make (ks : list string) : has_path ks make -> ks = [].
Proof.
  destruct ks as [|k r]; [reflexivity|]. simpl. rewrite lookup_make. intros [].
Qed.

Lemma fold_add_path_segments (paths : list string) (mask : NestedMask) :
  Forall (fun p => segments p EmptyString = []) paths ->
  fold_left add_path paths mask = mask.
Proof.
  intros Hall. apply fold_left_absorbed. intros p Hp.
  rewrite Forall_forall in Hall. apply list_elem_of_In in Hp.
  unfold add_path. rewrite walk_insert_segs. now rewrite (Hall p Hp).
Qed.

(** X1. The builder returns the empty mask exactly when every path of the
    list is made of dots only, the empty path included; this holds of both
    builders.  So [".", "..", "..."] and the empty list build the empty
    mask, and one path with a letter in it builds a mask that is not
    empty. *)
Theorem X1_builder_empty_iff_only_dots (paths : list string) :
  (NestedMaskFromPaths paths = make <->
   Forall (fun p => only_dots p = true) paths) /\
  (WildcardNestedMaskFromPaths paths = make <->
   Forall (fun p => only_dots p = true) paths).
Proof.
  assert (H : NestedMaskFromPaths paths = make <->
              Forall (fun p => only_dots p = true) paths).
  { split.
    - intros Hmake. apply Forall_forall. intros p Hp.
      apply list_elem_of_In in Hp.
      pose proof (has_path_build paths p Hp) as Hpath. rewrite Hmake in Hpath.
      apply has_path_make in Hpath. now apply segments_nil in Hpath as [_ ?].
    - intros Hall. unfold NestedMaskFromPaths. apply fold_add_path_segments.
      eapply Forall_impl; [exact Hall|]. intros p Hp. simpl in Hp.
      apply segments_nil. now split. }
  split; exact H.
Qed.

Lemma X1_builder_empty_iff_only_dots_witness :
  NestedMaskFromPaths ["."; ".."; "..."; ""] = make.
Proof.
  apply (proj1 (X1_builder_empty_iff_only_dots ["."; ".."; "..."; ""])).
  repeat constructor.
Defined.

Lemma segments_trailing_dot (path letters : string) :
  segments (path +:+ ".") letters = segments path letters.
Proof.
  revert letters. induction path as [|c rest IH]; intros letters; simpl.
  - destruct letters; reflexivity.
  - destruct (Ascii.eqb c "."%char); [destruct letters|]; now rewrite IH.
Qed.

Lemma segments_doubled_dot (path rest letters : string) :
  segments (path +:+ ".." +:+ rest) letters
  = segments (path +:+ "." +:+ rest) letters.
Proof.
  revert letters. induction path as [|c p IH]; intros letters; simpl.
  - destruct letters; reflexivity.
  - destruct (Ascii.eqb c "."%char); [destruct letters|]; now rewrite IH.
Qed.

(** X2. Dots that separate nothing are ignored by the builder's loop over a
    path: a dot in front of the path, a dot at its end and a second dot
    next to a dot each leave the tree the path builds unchanged, whatever
    the tree built so far. *)
Theorem X2_builder_ignores_empty_segments (mask : NestedMask)
    (path rest : string) :
  add_path mask ("." +:+ path) = add_path mask path /\
  add_path mask (path +:+ ".") = add_path mask path /\
  add_path mask (path +:+ ".." +:+ rest)
  = add_path mask (path +:+ "." +:+ rest).
Proof.
  unfold add_path. rewrite !walk_insert_segs.
  rewrite segments_trailing_dot, segments_doubled_dot. repeat split.
Qed.

Lemma has_path_insert_inv (ks ks' : list string) (mask : NestedMask) :
  has_path ks (insert_segs ks' mask) -> has_path ks mask \/ ks `prefix_of` ks'.
Proof.
  revert ks' mask. induction ks as [|k r IH]; intros ks' mask; [now left|].
  destruct ks' as [|k' r']; [now left|]. simpl.
  destruct (decide (k' = k)) as [->|Hne].
  - rewrite mask_lookup_insert_eq. intros H. apply IH in H as [H|H].
    + destruct (mask !! k) as [c|]; [now left|]. simpl in H.
      apply has_path_make in H as ->. right. apply prefix_cons, prefix_nil.
    + right. now apply prefix_cons.
  - rewrite mask_lookup_insert_ne by exact Hne. now left.
Qed.

Lemma has_path_fold_inv (ks : list string) (paths : list string)
    (mask : NestedMask) :
  has_path ks (fold_left add_path paths mask) ->
  has_path ks mask \/
  exists p, In p paths /\ ks `prefix_of` segments p EmptyString.
Proof.
  revert mask. induction paths as [|q paths IH]; intros mask; simpl; [now left|].
  intros H. apply IH in H as [H|(p & Hp & Hpre)].
  - unfold add_path in H. rewrite walk_insert_segs in H.
    apply has_path_insert_inv in H as [H|H]; [now left|].
    right. exists q. split; [now left | exact H].
  - right. exists p. split; [now right | exact Hpre].
Qed.

(** X3. The builder makes no node of its own: a chain of keys that leads
    from the root of the built tree to a node is the beginning of the
    segments of one of the listed paths. *)
Theorem X3_builder_nodes_come_from_paths (paths : list string)
    (ks : list string)
    (Hks : ks ≠ [])
    (Hpath : has_path ks (NestedMaskFromPaths paths)) :
  exists p, In p paths /\ ks `prefix_of` segments p EmptyString.
Proof.
  apply has_path_fold_inv in Hpath as [H|H]; [|exact H].
  now apply has_path_make in H.
Qed.

Lemma X3_builder_nodes_come_from_paths_witness :
  exists p, In p ["user.name"; "photo"] /\
            ["user"; "name"] `prefix_of` segments p EmptyString.
Proof.
  apply (X3_builder_nodes_come_from_paths ["user.name"; "photo"] ["user"; "name"]).
  - discriminate.
  - vm_compute. exact I.
Defined.

Lemma insert_segs_make (ks : list string) : insert_segs ks make = chain ks.
Proof.
  induction ks as [|k r IH]; [reflexivity|]. simpl.
  rewrite lookup_make. simpl. rewrite IH. rewrite mask_insert_unfold.
  reflexivity.
Qed.

(** X4. One path builds one chain: the tree of a single path has, under
    each segment of the path, the node of the next one, and a leaf under
    the last. *)
Theorem X4_builder_single_path_chain (path : string) :
  NestedMaskFromPaths [path] = chain (segments path EmptyString) /\
  WildcardNestedMaskFromPaths [path] = chain (segments path EmptyString).
Proof.
  unfold NestedMaskFromPaths, WildcardNestedMaskFromPaths. simpl.
  unfold add_path. now rewrite walk_insert_segs, insert_segs_make.
Qed.

(** ** The exact engine, field by field *)

Lemma Filter_field_of (mask : NestedMask) (msg msg' : Message)
    (name : string) (v : Value) :
  len mask ≠ 0%nat ->
  NestedMask_Filter mask msg = Done msg' ->
  Get msg name = Some v ->
  if populated v
  then exists r, Filter_field NestedMask_Filter mask name v = Done (true, r) /\
                 forall v', r = Some v' -> Get msg' name = Some v'
  else Get msg' name = Some v.
Proof.
  intros Hne Hrun Hget. apply NestedMask_Filter_Done in Hrun; [|exact Hne].
  exact (Range_assoc populated _ (Filter_field_steady _ mask)
           name _ _ _ Hrun Hget).
Qed.

Lemma Prune_field_of (mask : NestedMask) (msg msg' : Message)
    (name : string) (v : Value) :
  len mask ≠ 0%nat ->
  NestedMask_Prune mask msg = Done msg' ->
  Get msg name = Some v ->
  if populated v
  then exists r, Prune_field NestedMask_Prune mask name v = Done (true, r) /\
                 forall v', r = Some v' -> Get msg' name = Some v'
  else Get msg' name = Some v.
Proof.
  intros Hne Hrun Hget. apply NestedMask_Prune_Done in Hrun; [|exact Hne].
  exact (Range_assoc populated _ (Prune_field_steady _ mask)
           name _ _ _ Hrun Hget).
Qed.

Lemma Range_names_sublist {K : Type} present
    (f : K -> Value -> Run (bool * Kept)) (items items' : list (K * Value)) :
  Range present f items = Done items' ->
  map fst items' `sublist_of` map fst items.
Proof.
  revert items'. induction items as [|[k v] rest IH]; intros items' HR;
    simpl in HR.
  - inversion HR. constructor.
  - destruct (present v).
    + run_inv HR. destruct a as [b r].
      assert (Hhere : forall tail tail' : list (K * Value),
                 map fst tail' `sublist_of` map fst tail ->
                 map fst (match r with Some v' => [(k, v')] | None => [] end
                          ++ tail')
                 `sublist_of` map fst ((k, v) :: tail)).
      { intros tail tail' Hsub. destruct r; simpl;
          [now apply sublist_skip | now apply sublist_cons]. }
      destruct b.
      * run_inv HR. inversion HR. apply Hhere. now apply IH.
      * inversion HR. now apply Hhere.
    + run_inv HR. inversion HR. simpl. apply sublist_skip. now apply IH.
Qed.

(** X5. No method adds a field or changes the order of the fields: the
    names of the fields of the message [Filter] or [Prune] returns, exact or
    wildcard, are names of the message it was given, in the same order,
    some left out. *)
Theorem X5_fields_only_removed (mask : NestedMask) (msg msg' : Message)
    (Hrun : NestedMask_Filter mask msg = Done msg' \/
            NestedMask_Prune mask msg = Done msg' \/
            WildcardNestedMask_Filter mask msg = Done msg' \/
            WildcardNestedMask_Prune mask msg = Done msg') :
  map fst (fields msg') `sublist_of` map fst (fields msg).
Proof.
  destruct Hrun as [H|[H|[H|H]]].
  - destruct (Nat.eq_dec (len mask) 0) as [Hz|Hnz].
    + destruct msg. simpl in H. rewrite Hz in H. simpl in H. now inversion H.
    + apply NestedMask_Filter_Done in H; [|exact Hnz].
      exact (Range_names_sublist _ _ _ _ H).
  - destruct (Nat.eq_dec (len mask) 0) as [Hz|Hnz].
    + destruct msg. simpl in H. rewrite Hz in H. simpl in H. now inversion H.
    + apply NestedMask_Prune_Done in H; [|exact Hnz].
      exact (Range_names_sublist _ _ _ _ H).
  - now apply WildcardNestedMask_Filter_same in H as ->.
  - unfold WildcardNestedMask_Prune, Prune_body in H.
    destruct (len mask =? 0)%nat; [now inversion H|].
    run_inv H. inversion H. simpl.
    exact (Range_names_sublist _ _ _ _ E).
Qed.

Lemma X5_fields_only_removed_witness :
  map fst (fields (Msg [("photo", photo)])) `sublist_of` map fst (fields profile).
Proof.
  apply (X5_fields_only_removed (NestedMaskFromPaths ["user"])).
  right. left. vm_compute. reflexivity.
Defined.

(** X6. A scalar field whose node in the mask is not a leaf is out of reach
    of the recursion: [Filter] and [Prune] both leave it with the value it
    had. *)
Theorem X6_scalar_under_nonleaf_kept (mask m : NestedMask) (msg : Message)
    (name : string) (s : Scalar)
    (Hm : mask !! name = Some m)
    (Hnonleaf : len m ≠ 0%nat)
    (Hfield : Get msg name = Some (VScalar s)) :
  (forall msg', NestedMask_Filter mask msg = Done msg' ->
                Get msg' name = Some (VScalar s)) /\
  (forall msg', NestedMask_Prune mask msg = Done msg' ->
                Get msg' name = Some (VScalar s)).
Proof.
  pose proof (lookup_Some_len _ _ _ Hm) as Hmask.
  pose proof (len_eqb_false _ Hnonleaf) as Hlen.
  split; intros msg' Hrun.
  - pose proof (Filter_field_of _ _ _ _ _ Hmask Hrun Hfield) as (r & Hf & H).
    apply H. unfold Filter_field in Hf. rewrite Hm, Hlen in Hf.
    now inversion Hf.
  - pose proof (Prune_field_of _ _ _ _ _ Hmask Hrun Hfield) as (r & Hf & H).
    apply H. unfold Prune_field in Hf. rewrite Hm, Hlen in Hf.
    now inversion Hf.
Qed.

Lemma X6_scalar_under_nonleaf_kept_witness :
  Get (Msg [("name", VScalar (SString "n"))]) "name"
  = Some (VScalar (SString "n")).
Proof.
  pose proof (X6_scalar_under_nonleaf_kept
                (NestedMaskFromPaths ["name.first"])
                (Mask {[ "first" := make ]})
                (Msg [("user_id", VScalar (SInt 1));
                      ("name", VScalar (SString "n"))])
                "name" (SString "n")) as H.
  destruct H as [HF _].
  - vm_compute. reflexivity.
  - vm_compute. discriminate.
  - reflexivity.
  - apply HF. vm_compute. reflexivity.
Defined.

Lemma Filter_map_of (mask m : NestedMask) (msg msg' : Message)
    (name : string) (entries : list (MapKey * Value)) :
  mask !! name = Some m -> len m ≠ 0%nat ->
  Get msg name = Some (VMap entries) ->
  NestedMask_Filter mask msg = Done msg' ->
  exists entries',
    Get msg' name = Some (VMap entries') /\
    Map_Range (Filter_entry NestedMask_Filter m) entries = Done entries'.
Proof.
  intros Hm Hnl Hget Hrun.
  pose proof (Filter_field_of _ _ _ _ _ (lookup_Some_len _ _ _ Hm) Hrun Hget) as H.
  destruct entries as [|e rest]; simpl in H.
  - exists []. split; [exact H | reflexivity].
  - destruct H as (r & Hf & H). unfold Filter_field in Hf.
    rewrite Hm, (len_eqb_false _ Hnl) in Hf. run_inv Hf. inversion Hf; subst r.
    exists a. split; [now apply H | exact E].
Qed.

Lemma Prune_map_of (mask m : NestedMask) (msg msg' : Message)
    (name : string) (entries : list (MapKey * Value)) :
  mask !! name = Some m -> len m ≠ 0%nat ->
  Get msg name = Some (VMap entries) ->
  NestedMask_Prune mask msg = Done msg' ->
  exists entries',
    Get msg' name = Some (VMap entries') /\
    Map_Range (Prune_entry NestedMask_Prune m) entries = Done entries'.
Proof.
  intros Hm Hnl Hget Hrun.
  pose proof (Prune_field_of _ _ _ _ _ (lookup_Some_len _ _ _ Hm) Hrun Hget) as H.
  destruct entries as [|e rest]; simpl in H.
  - exists []. split; [exact H | reflexivity].
  - destruct H as (r & Hf & H). unfold Prune_field in Hf.
    rewrite Hm, (len_eqb_false _ Hnl) in Hf. run_inv Hf. inversion Hf; subst r.
    exists a. split; [now apply H | exact E].
Qed.

Lemma Map_Range_gone (f : MapKey -> Value -> Run (bool * Kept))
    (entries entries' : list (MapKey * Value)) (mk : MapKey) :
  steady f ->
  (forall v b r, f mk v = Done (b, r) -> r = None) ->
  Map_Range f entries = Done entries' ->
  Map_Get entries' mk = None.
Proof.
  intros Hs Hnone HR. apply assoc_None. intros v Hin.
  enough (true = false) by discriminate.
  apply (Range_cleared (fun _ => true) f Hs mk _ _ HR) with (v := v);
    [|exact Hin].
  intros v0 b r _ _. apply Hnone.
Qed.

(** X7. In a map field whose node in the mask is not a leaf, an entry whose
    key the subtree does not hold is cleared by [Filter] and left with its
    value by [Prune], whatever the value is. *)
Theorem X7_map_entry_key_absent (mask m : NestedMask) (msg : Message)
    (name : string) (entries : list (MapKey * Value)) (mk : MapKey)
    (Hm : mask !! name = Some m)
    (Hnonleaf : len m ≠ 0%nat)
    (Hkey : m !! MapKey_String mk = None)
    (Hfield : Get msg name = Some (VMap entries)) :
  (forall msg', NestedMask_Filter mask msg = Done msg' ->
     exists entries', Get msg' name = Some (VMap entries') /\
                      Map_Get entries' mk = None) /\
  (forall msg', NestedMask_Prune mask msg = Done msg' ->
     exists entries', Get msg' name = Some (VMap entries') /\
                      Map_Get entries' mk = Map_Get entries mk).
Proof.
  split; intros msg' Hrun.
  - destruct (Filter_map_of _ _ _ _ _ _ Hm Hnonleaf Hfield Hrun)
      as (entries' & Hget & HR).
    exists entries'. split; [exact Hget|].
    eapply Map_Range_gone; [| |exact HR]; [apply Filter_entry_steady|].
    intros v b r. unfold Filter_entry. rewrite Hkey. now intros [= _ <-].
  - destruct (Prune_map_of _ _ _ _ _ _ Hm Hnonleaf Hfield Hrun)
      as (entries' & Hget & HR).
    exists entries'. split; [exact Hget|].
    apply (Range_assoc_kept (fun _ => true) _ mk _ _
             (Prune_entry_steady NestedMask_Prune m)); [|exact HR].
    intros v b r. unfold Prune_entry. rewrite Hkey. now intros [= _ <-].
Qed.

Lemma X7_map_entry_key_absent_witness :
  (exists entries',
      Get (Msg [("tags", VMap [(KString "t2", VScalar (SString "2"))])]) "tags"
      = Some (VMap entries') /\ Map_Get entries' (KString "t1") = None).
Proof.
  pose proof (X7_map_entry_key_absent
                (NestedMaskFromPaths ["tags.t2"])
                (Mask {[ "t2" := make ]})
                (Msg [("tags", tags)]) "tags"
                [(KString "t1", VScalar (SString "1"));
                 (KString "t2", VScalar (SString "2"));
                 (KString "t3", VScalar (SString "3"))]
                (KString "t1")) as H.
  destruct H as [HF _].
  - vm_compute. reflexivity.
  - vm_compute. discriminate.
  - vm_compute. reflexivity.
  - reflexivity.
  - apply HF. vm_compute. reflexivity.
Defined.

(** X8. In a map field whose node in the mask is not a leaf, an entry whose
    key the subtree holds as a leaf is kept with its value by [Filter] and
    cleared by [Prune], whether the value is a message or not. *)
Theorem X8_map_entry_key_leaf (mask m mi : NestedMask) (msg : Message)
    (name : string) (entries : list (MapKey * Value)) (mk : MapKey)
    (Hm : mask !! name = Some m)
    (Hmi : m !! MapKey_String mk = Some mi)
    (Hleaf : len mi = 0%nat)
    (Hfield : Get msg name = Some (VMap entries)) :
  (forall msg', NestedMask_Filter mask msg = Done msg' ->
     exists entries', Get msg' name = Some (VMap entries') /\
                      Map_Get entries' mk = Map_Get entries mk) /\
  (forall msg', NestedMask_Prune mask msg = Done msg' ->
     exists entries', Get msg' name = Some (VMap entries') /\
                      Map_Get entries' mk = None).
Proof.
  pose proof (lookup_Some_len _ _ _ Hmi) as Hnonleaf.
  split; intros msg' Hrun.
  - destruct (Filter_map_of _ _ _ _ _ _ Hm Hnonleaf Hfield Hrun)
      as (entries' & Hget & HR).
    exists entries'. split; [exact Hget|].
    apply (Range_assoc_kept (fun _ => true) _ mk _ _
             (Filter_entry_steady NestedMask_Filter m)); [|exact HR].
    intros v b r. unfold Filter_entry. rewrite Hmi, Hleaf.
    destruct v; now intros [= _ <-].
  - destruct (Prune_map_of _ _ _ _ _ _ Hm Hnonleaf Hfield Hrun)
      as (entries' & Hget & HR).
    exists entries'. split; [exact Hget|].
    eapply Map_Range_gone; [| |exact HR]; [apply Prune_entry_steady|].
    intros v b r. unfold Prune_entry. rewrite Hmi, Hleaf.
    destruct v; now intros [= _ <-].
Qed.

Lemma X8_map_entry_key_leaf_witness :
  (exists entries',
      Get (Msg [("attrs", VMap [(KString "a2", attribute);
                                (KString "a3", attribute)])]) "attrs"
      = Some (VMap entries') /\ Map_Get entries' (KString "a1") = None).
Proof.
  pose proof (X8_map_entry_key_leaf
                (NestedMaskFromPaths ["attrs.a1"])
                (Mask {[ "a1" := make ]}) make
                attrs "attrs"
                [(KString "a1", attribute); (KString "a2", attribute);
                 (KString "a3", attribute)]
                (KString "a1")) as H.
  destruct H as [_ HP].
  - vm_compute. reflexivity.
  - vm_compute. reflexivity.
  - reflexivity.
  - reflexivity.
  - apply HP. vm_compute. reflexivity.
Defined.



Lemma List_each_Forall2 (f : Message -> Run Message) (elems elems' : list Value) :
  List_each f elems = Done elems' ->
  Forall2 (fun e e' => exists x x', e = VMessage x /\ e' = VMessage x' /\
                                    f x = Done x') elems elems'.
Proof.
  revert elems'. induction elems as [|e rest IH]; intros elems' HR; simpl in HR.
  - inversion HR. constructor.
  - destruct e as [s|x|l|es]; try discriminate HR.
    run_inv HR. run_inv HR. inversion HR. constructor; [|now apply IH].
    exists x, a. auto.
Qed.

(** X10. A list field whose node in the mask is not a leaf is handled
    element by element, every element with the same subtree: the list keeps
    its length and order, and each element holds what the same method
    returns on the message that was there. *)
Theorem X10_list_field_recursion (mask m : NestedMask) (msg : Message)
    (name : string) (elems : list Value)
    (Hm : mask !! name = Some m)
    (Hnonleaf : len m ≠ 0%nat)
    (Hfield : Get msg name = Some (VList elems)) :
  (forall msg', NestedMask_Filter mask msg = Done msg' ->
     exists elems', Get msg' name = Some (VList elems') /\
       Forall2 (fun e e' => exists x x', e = VMessage x /\ e' = VMessage x' /\
                  NestedMask_Filter m x = Done x') elems elems') /\
  (forall msg', NestedMask_Prune mask msg = Done msg' ->
     exists elems', Get msg' name = Some (VList elems') /\
       Forall2 (fun e e' => exists x x', e = VMessage x /\ e' = VMessage x' /\
                  NestedMask_Prune m x = Done x') elems elems').
Proof.
  pose proof (lookup_Some_len _ _ _ Hm) as Hmask.
  pose proof (len_eqb_false _ Hnonleaf) as Hlen.
  split; intros msg' Hrun.
  - pose proof (Filter_field_of _ _ _ _ _ Hmask Hrun Hfield) as H.
    destruct elems as [|e rest]; simpl in H.
    { exists []. split; [exact H | constructor]. }
    destruct H as (r & Hf & H). unfold Filter_field in Hf.
    rewrite Hm, Hlen in Hf. run_inv Hf. inversion Hf; subst r.
    exists a. split; [now apply H | now apply List_each_Forall2].
  - pose proof (Prune_field_of _ _ _ _ _ Hmask Hrun Hfield) as H.
    destruct elems as [|e rest]; simpl in H.
    { exists []. split; [exact H | constructor]. }
    destruct H as (r & Hf & H). unfold Prune_field in Hf.
    rewrite Hm, Hlen in Hf. run_inv Hf. inversion Hf; subst r.
    exists a. split; [now apply H | now apply List_each_Forall2].
Qed.

Lemma X10_list_field_recursion_witness :
  exists elems',
    Get (Msg [("gallery", VList [VMessage (Msg []); VMessage (Msg [])])]) "gallery"
    = Some (VList elems') /\
    Forall2 (fun e e' => exists x x', e = VMessage x /\ e' = VMessage x' /\
               NestedMask_Filter (Mask {[ "path" := make ]}) x = Done x')
            [photo; photo] elems'.
Proof.
  pose proof (X10_list_field_recursion
                (NestedMaskFromPaths ["gallery.path"])
                (Mask {[ "path" := make ]})
                (Msg [("gallery", VList [photo; photo])]) "gallery"
                [photo; photo]) as H.
  destruct H as [HF _].
  - vm_compute. reflexivity.
  - vm_compute. discriminate.
  - reflexivity.
  - apply HF. vm_compute. reflexivity.
Defined.

(** X11. In a map field whose node in the mask is not a leaf, an entry that
    holds a message and whose key the subtree holds with a node that is not
    a leaf is handled by the same method run on that message with that
    node: the entry stays and holds what the run returns. *)
Theorem X11_map_entry_recursion (mask m mi : NestedMask) (msg : Message)
    (name : string) (entries : list (MapKey * Value)) (mk : MapKey)
    (i : Message)
    (Hm : mask !! name = Some m)
    (Hmi : m !! MapKey_String mk = Some mi)
    (Hnonleaf : len mi ≠ 0%nat)
    (Hfield : Get msg name = Some (VMap entries))
    (Hentry : Map_Get entries mk = Some (VMessage i)) :
  (forall msg', NestedMask_Filter mask msg = Done msg' ->
     exists entries' i', Get msg' name = Some (VMap entries') /\
       NestedMask_Filter mi i = Done i' /\
       Map_Get entries' mk = Some (VMessage i')) /\
  (forall msg', NestedMask_Prune mask msg = Done msg' ->
     exists entries' i', Get msg' name = Some (VMap entries') /\
       NestedMask_Prune mi i = Done i' /\
       Map_Get entries' mk = Some (VMessage i')).
Proof.
  pose proof (lookup_Some_len _ _ _ Hmi) as Hmnl.
  assert (Hlt : (0 <? len mi)%nat = true) by (apply Nat.ltb_lt; lia).
  split; intros msg' Hrun.
  - destruct (Filter_map_of _ _ _ _ _ _ Hm Hmnl Hfield Hrun)
      as (entries' & Hget & HR).
    pose proof (Range_assoc (fun _ => true) _
                  (Filter_entry_steady NestedMask_Filter m)
                  mk _ _ _ HR Hentry) as (r & Hr & Hkeep).
    unfold Filter_entry in Hr. rewrite Hmi, Hlt in Hr.
    run_inv Hr. inversion Hr; subst r.
    exists entries', a. repeat split; [exact Hget | exact E | now apply Hkeep].
  - destruct (Prune_map_of _ _ _ _ _ _ Hm Hmnl Hfield Hrun)
      as (entries' & Hget & HR).
    pose proof (Range_assoc (fun _ => true) _
                  (Prune_entry_steady NestedMask_Prune m)
                  mk _ _ _ HR Hentry) as (r & Hr & Hkeep).
    unfold Prune_entry in Hr. rewrite Hmi, Hlt in Hr.
    run_inv Hr. inversion Hr; subst r.
    exists entries', a. repeat split; [exact Hget | exact E | now apply Hkeep].
Qed.

Lemma X11_map_entry_recursion_witness :
  exists entries' i',
    Get (Msg [("attrs", VMap [(KString "a2", only_tag "t2" "2")])]) "attrs"
    = Some (VMap entries') /\
    NestedMask_Filter (Mask {[ "tags" := Mask {[ "t2" := make ]} ]})
      (Msg [("tags", tags)]) = Done i' /\
    Map_Get entries' (KString "a2") = Some (VMessage i').
Proof.
  pose proof (X11_map_entry_recursion
                (NestedMaskFromPaths ["attrs.a2.tags.t2"])
                (Mask {[ "a2" := Mask {[ "tags" := Mask {[ "t2" := make ]} ]} ]})
                (Mask {[ "tags" := Mask {[ "t2" := make ]} ]})
                attrs "attrs"
                [(KString "a1", attribute); (KString "a2", attribute);
                 (KString "a3", attribute)]
                (KString "a2") (Msg [("tags", tags)])) as H.
  destruct H as [HF _].
  - vm_compute. reflexivity.
  - vm_compute. reflexivity.
  - vm_compute. discriminate.
  - reflexivity.
  - reflexivity.
  - apply HF. vm_compute. reflexivity.
Defined.

(** ** Panics of the exact engine *)

Lemma Range_In_Done {K : Type} present (f : K -> Value -> Run (bool * Kept))
    (items items' : list (K * Value)) (k : K) (v : Value) :
  steady f ->
  Range present f items = Done items' ->
  In (k, v) items -> present v = true ->
  exists r, f k v = Done (true, r).
Proof.
  intros Hs. revert items'.
  induction items as [|[k0 v0] rest IH]; intros items' HR Hin Hp; [destruct Hin|].
  destruct (present v0) eqn:Hp0.
  - apply (Range_cons_present present f Hs) in HR
      as (r & rest' & Hf & HR & _); [|exact Hp0].
    destruct Hin as [Heq|Hin]; [inversion Heq; subst; eauto|].
    now apply (IH rest').
  - apply (Range_cons_absent present f) in HR as (rest' & HR & _); [|exact Hp0].
    destruct Hin as [Heq|Hin]; [inversion Heq; subst; congruence|].
    now apply (IH rest').
Qed.

Lemma List_each_Done_messages (f : Message -> Run Message)
    (elems elems' : list Value) (e : Value) :
  List_each f elems = Done elems' -> In e elems -> is_message e = true.
Proof.
  intros HR Hin. apply List_each_Forall2 in HR.
  apply list_elem_of_In in Hin. revert e Hin. induction HR as [|a b l l' (x & x' & -> & _) _ IH]; intros e Hin.
  - now apply elem_of_nil in Hin.
  - apply elem_of_cons in Hin as [->|Hin]; [reflexivity | now apply IH].
Qed.

(** X12. A list field that holds an element that is no message, under a
    node of the mask that is not a leaf, makes [Filter] and [Prune] panic:
    [list.Get(i).Message()] has no message to give. *)
Theorem X12_scalar_list_under_nonleaf_panics (mask m : NestedMask)
    (msg : Message) (name : string) (elems : list Value) (e : Value)
    (Hm : mask !! name = Some m)
    (Hnonleaf : len m ≠ 0%nat)
    (Hfield : In (name, VList elems) (fields msg))
    (Helem : In e elems)
    (Hscalar : is_message e = false) :
  NestedMask_Filter mask msg = Panic /\ NestedMask_Prune mask msg = Panic.
Proof.
  pose proof (lookup_Some_len _ _ _ Hm) as Hmask.
  pose proof (len_eqb_false _ Hnonleaf) as Hlen.
  assert (Hpop : populated (VList elems) = true)
    by (destruct elems; [destruct Helem | reflexivity]).
  destruct (Exact_total msg mask) as [HF HP].
  split.
  - destruct (NestedMask_Filter mask msg) as [msg'| |] eqn:Hrun;
      [|reflexivity|contradiction].
    apply NestedMask_Filter_Done in Hrun; [|exact Hmask].
    destruct (Range_In_Done populated _ _ _ _ _
                (Filter_field_steady NestedMask_Filter mask) Hrun Hfield Hpop)
      as (r & Hf).
    unfold Filter_field in Hf. rewrite Hm, Hlen in Hf. run_inv Hf.
    rewrite (List_each_Done_messages _ _ _ _ E Helem) in Hscalar.
    discriminate.
  - destruct (NestedMask_Prune mask msg) as [msg'| |] eqn:Hrun;
      [|reflexivity|contradiction].
    apply NestedMask_Prune_Done in Hrun; [|exact Hmask].
    destruct (Range_In_Done populated _ _ _ _ _
                (Prune_field_steady NestedMask_Prune mask) Hrun Hfield Hpop)
      as (r & Hf).
    unfold Prune_field in Hf. rewrite Hm, Hlen in Hf. run_inv Hf.
    rewrite (List_each_Done_messages _ _ _ _ E Helem) in Hscalar.
    discriminate.
Qed.

Lemma X12_scalar_list_under_nonleaf_panics_witness :
  NestedMask_Filter (NestedMaskFromPaths ["login_timestamps.seconds"])
    (Msg [("user", user);
          ("login_timestamps", VList [VScalar (SInt 1); VScalar (SInt 2)])])
  = Panic.
Proof.
  apply (X12_scalar_list_under_nonleaf_panics
           (NestedMaskFromPaths ["login_timestamps.seconds"])
           (Mask {[ "seconds" := make ]})
           (Msg [("user", user);
                 ("login_timestamps", VList [VScalar (SInt 1); VScalar (SInt 2)])])
           "login_timestamps" [VScalar (SInt 1); VScalar (SInt 2)]
           (VScalar (SInt 2))).
  - vm_compute. reflexivity.
  - vm_compute. discriminate.
  - simpl. auto.
  - simpl. auto.
  - reflexivity.
Defined.

(** ** Pruning twice, and masks that touch nothing *)

Lemma NestedMask_Prune_unfold (mask : NestedMask) (fs : list (string * Value)) :
  NestedMask_Prune mask (Msg fs) =
  if (len mask =? 0)%nat then Done (Msg fs) else
  let* fs' := Message_Range (Prune_field NestedMask_Prune mask) fs in
  Done (Msg fs').
Proof. reflexivity. Qed.

Lemma NestedMask_Prune_idem (msg : Message) :
  forall (mask : NestedMask) (msg' : Message),
    NestedMask_Prune mask msg = Done msg' ->
    NestedMask_Prune mask msg' = Done msg'.
Proof.
  induction msg as [fs IH] using Message_induction.
  intros mask msg' HR.
  destruct (Nat.eq_dec (len mask) 0) as [Hz|Hnz].
  { simpl in HR. rewrite Hz in HR. simpl in HR. inversion HR. subst msg'.
    simpl. now rewrite Hz. }
  pose proof (NestedMask_Prune_Done _ _ _ Hnz HR) as HRange.
  destruct msg' as [fs']. simpl in HRange.
  rewrite NestedMask_Prune_unfold, (len_eqb_false _ Hnz).
  unfold Message_Range in *.
  rewrite (Range_idem populated _ (Prune_field_steady _ mask) _ _ HRange);
    [reflexivity|].
  eapply Forall_impl; [exact IH|]. clear HR HRange fs fs' IH.
  intros [name v] Hin v' _. simpl in Hin |- *. unfold Prune_field.
  destruct (mask !! name) as [m|]; [|now intros [= <-]].
  destruct (len m =? 0)%nat; [discriminate|].
  destruct v as [s|x|elems|entries]; simpl in Hin.
  - now intros [= <-].
  - intros Hf _. run_inv Hf. inversion Hf; subst v'.
    now rewrite (Hin _ _ E).
  - intros Hf _. run_inv Hf. inversion Hf; subst v'.
    rewrite (List_each_idem (NestedMask_Prune m) elems a); [reflexivity| |exact E].
    eapply Forall_impl; [exact Hin|]. intros [| | |] Hx; simpl in *; auto.
  - intros Hf _. run_inv Hf. inversion Hf; subst v'.
    unfold Map_Range in *.
    rewrite (Range_idem (fun _ => true) _ (Prune_entry_steady _ m) _ _ E);
      [reflexivity|].
    eapply Forall_impl; [exact Hin|]. clear.
    intros [mk mv] Hmv w _. simpl in *. unfold Prune_entry.
    destruct (m !! MapKey_String mk) as [mi|]; [|now intros [= <-]].
    destruct mv as [s|i|l|es]; try discriminate.
    destruct (0 <? len mi)%nat eqn:Hlen; [|discriminate].
    intros Hf _. run_inv Hf. inversion Hf; subst w.
    cbn iota beta. now rewrite (Hmv _ _ E).
Qed.

(** X13. Pruning a pruned message with the same mask changes nothing:
    running [Prune] again on what [Prune] returned ends as the first run
    did, with the same message. *)
Theorem X13_prune_idempotent (M : NestedMask) (X : Message) :
  (let* X' := NestedMask_Prune M X in NestedMask_Prune M X')
  = NestedMask_Prune M X.
Proof.
  destruct (NestedMask_Prune M X) as [X'| |] eqn:E; simpl; try reflexivity.
  now apply (NestedMask_Prune_idem X).
Qed.

Lemma Range_fixed {K : Type} present (f : K -> Value -> Run (bool * Kept))
    (items : list (K * Value)) :
  (forall k v, In (k, v) items -> present v = true ->
               f k v = Done (true, Some v)) ->
  Range present f items = Done items.
Proof.
  induction items as [|[k v] rest IH]; intros H; simpl; [reflexivity|].
  rewrite IH by (intros k' v' Hin; apply H; now right).
  destruct (present v) eqn:Hp; [|reflexivity].
  now rewrite (H k v (or_introl eq_refl) Hp).
Qed.

(** X14. A mask that names every populated field of the message as a leaf
    makes [Filter] return the message as it was; a mask that names none of
    the populated fields makes [Prune] return the message as it was. *)
Theorem X14_masks_that_touch_nothing (mask : NestedMask) (msg : Message) :
  ((forall name v, In (name, v) (fields msg) -> populated v = true ->
      exists m, mask !! name = Some m /\ len m = 0%nat) ->
   NestedMask_Filter mask msg = Done msg) /\
  ((forall name v, In (name, v) (fields msg) -> populated v = true ->
      mask !! name = None) ->
   NestedMask_Prune mask msg = Done msg).
Proof.
  destruct msg as [fs]. split; intros H.
  - rewrite NestedMask_Filter_unfold. destruct (len mask =? 0)%nat; [reflexivity|].
    unfold Message_Range. rewrite Range_fixed; [reflexivity|].
    intros name v Hin Hp. destruct (H name v Hin Hp) as (m & Hm & Hleaf).
    unfold Filter_field. now rewrite Hm, Hleaf.
  - rewrite NestedMask_Prune_unfold. destruct (len mask =? 0)%nat; [reflexivity|].
    unfold Message_Range. rewrite Range_fixed; [reflexivity|].
    intros name v Hin Hp. unfold Prune_field. now rewrite (H name v Hin Hp).
Qed.

Lemma X14_masks_that_touch_nothing_witness :
  NestedMask_Filter (NestedMaskFromPaths ["user"; "photo"]) profile
  = Done profile /\
  NestedMask_Prune (NestedMaskFromPaths ["dimensions"]) profile = Done profile.
Proof.
  split.
  - apply (proj1 (X14_masks_that_touch_nothing
                    (NestedMaskFromPaths ["user"; "photo"]) profile)).
    intros name v [H|[H|[]]] _; inversion H; subst; exists make;
      split; vm_compute; reflexivity.
  - apply (proj2 (X14_masks_that_touch_nothing
                    (NestedMaskFromPaths ["dimensions"]) profile)).
    intros name v [H|[H|[]]] _; inversion H; subst; vm_compute; reflexivity.
Defined.

(** ** The wildcard engine, on every message *)

(** X15. [WildcardNestedMask.Filter] clears nothing and trims nothing,
    whatever the mask: it returns the message it was given, or it panics. *)
Theorem X15_wildcard_filter_returns_input (mask : WildcardNestedMask)
    (msg : Message) :
  WildcardNestedMask_Filter mask msg = Done msg \/
  WildcardNestedMask_Filter mask msg = Panic.
Proof.
  destruct (WildcardNestedMask_Filter mask msg) as [msg'| |] eqn:E.
  - left. now apply WildcardNestedMask_Filter_same in E as ->.
  - now right.
  - now apply (proj1 (Wildcard_total mask msg)) in E.
Qed.

Lemma Range_all_cleared {K : Type} present
    (f : K -> Value -> Run (bool * Kept)) (items items' : list (K * Value)) :
  steady f ->
  (forall k v b r, f k v = Done (b, r) -> r = None) ->
  Range present f items = Done items' ->
  items' = List.filter (fun i => negb (present (snd i))) items.
Proof.
  intros Hs Hnone. revert items'.
  induction items as [|[k v] rest IH]; intros items' HR.
  - now inversion HR.
  - simpl. destruct (present v) eqn:Hp; simpl.
    + apply (Range_cons_present present f Hs) in HR
        as (r & rest' & Hf & HR & ->); [|exact Hp].
      apply Hnone in Hf as ->. simpl. now apply IH.
    + apply (Range_cons_absent present f) in HR as (rest' & HR & ->);
        [|exact Hp].
      f_equal. now apply IH.
Qed.

(** X16. [WildcardNestedMask.Prune] with a mask that is not empty clears
    every populated field of the message, whether the mask names it or not:
    the message it returns has no field left set. *)
Theorem X16_wildcard_prune_clears_all (mask : WildcardNestedMask)
    (msg msg' : Message)
    (Hmask : len mask ≠ 0%nat)
    (Hrun : WildcardNestedMask_Prune mask msg = Done msg') :
  fields msg' = List.filter (fun f => negb (populated (snd f))) (fields msg) /\
  forall name, Has msg' name = false.
Proof.
  unfold WildcardNestedMask_Prune, Prune_body in Hrun.
  rewrite (len_eqb_false _ Hmask) in Hrun. run_inv Hrun. inversion Hrun.
  subst msg'. simpl.
  assert (Hfs : a = List.filter (fun f => negb (populated (snd f))) (fields msg)).
  { eapply Range_all_cleared; [| |exact E].
    - intros name v b r H. run_inv H. destruct a0 as [b1 v1].
      rewrite (filterField_true _ _ _ _ _ _ _ _ E0) in H. now inversion H.
    - intros name v b r H. run_inv H. destruct a0 as [b1 v1].
      rewrite (filterField_true _ _ _ _ _ _ _ _ E0) in H. now inversion H. }
  split; [exact Hfs|].
  intros name. apply Has_false. simpl. rewrite Hfs. intros v Hin.
  apply filter_In in Hin as [_ Hp]. simpl in Hp.
  now apply negb_true_iff in Hp.
Qed.

Lemma X16_wildcard_prune_clears_all_witness :
  fields (Msg []) = List.filter (fun f => negb (populated (snd f))) (fields profile) /\
  Has (Msg []) "photo" = false.
Proof.
  pose proof (X16_wildcard_prune_clears_all
                (WildcardNestedMaskFromPaths ["user.name"]) profile (Msg []))
    as H.
  destruct H as [H1 H2].
  - vm_compute. discriminate.
  - vm_compute. reflexivity.
  - split; [exact H1 | exact (H2 "photo")].
Defined.

(** ** Messages on which the exact engine cannot panic *)

Lemma Range_Done {K : Type} present (f : K -> Value -> Run (bool * Kept))
    (items : list (K * Value)) :
  (forall k v, In (k, v) items -> exists r, f k v = Done r) ->
  exists items', Range present f items = Done items'.
Proof.
  induction items as [|[k v] rest IH]; intros H; simpl; [eauto|].
  destruct IH as (rest' & ->); [intros k' v' Hin; apply H; now right|].
  destruct (H k v (or_introl eq_refl)) as ([b r] & ->). simpl.
  destruct (present v), b; eauto.
Qed.

Lemma List_each_Done (f : Message -> Run Message) (elems : list Value) :
  (forall e, In e elems -> exists x x', e = VMessage x /\ f x = Done x') ->
  exists elems', List_each f elems = Done elems'.
Proof.
  induction elems as [|e rest IH]; intros H; simpl; [eauto|].
  destruct IH as (rest' & Hrest); [intros e' Hin; apply H; now right|].
  destruct (H e (or_introl eq_refl)) as (x & x' & -> & ->). simpl.
  rewrite Hrest. simpl. eauto.
Qed.

Section ExactDone.
Variable recurse : NestedMask -> Message -> Run Message.
Variable good : Message -> Prop.
Hypothesis recurse_good : forall x m, good x -> exists x', recurse m x = Done x'.

Lemma exact_field_Done (mask : NestedMask) (name : string) (v : Value) :
  match v with
  | VScalar _ => True
  | VMessage x => good x
  | VList elems => Forall (fun e => exists x, e = VMessage x /\ good x) elems
  | VMap entries => Forall (fun e => on_message good (snd e)) entries
  end ->
  (exists r, Filter_field recurse mask name v = Done r) /\
  (exists r, Prune_field recurse mask name v = Done r).
Proof.
  intros Hv. unfold Filter_field, Prune_field.
  destruct (mask !! name) as [m|]; [|eauto].
  destruct (len m =? 0)%nat; [eauto|].
  destruct v as [s|x|elems|entries].
  - eauto.
  - destruct (recurse_good x m Hv) as (x' & ->). simpl. eauto.
  - destruct (List_each_Done (recurse m) elems) as (elems' & ->); [|simpl; eauto].
    intros e Hin. rewrite Forall_forall in Hv. apply list_elem_of_In in Hin.
    destruct (Hv e Hin) as (x & -> & Hx).
    destruct (recurse_good x m Hx) as (x' & Hx'). eauto.
  - assert (Hentry : forall mk mv, In (mk, mv) entries ->
              (exists r, Filter_entry recurse m mk mv = Done r) /\
              (exists r, Prune_entry recurse m mk mv = Done r)).
    { intros mk mv Hin. rewrite Forall_forall in Hv.
      apply list_elem_of_In in Hin. specialize (Hv _ Hin). simpl in Hv.
      unfold Filter_entry, Prune_entry.
      destruct (m !! MapKey_String mk) as [mi|]; [|eauto].
      destruct mv as [s|i|l|es]; eauto.
      destruct (0 <? len mi)%nat; [|eauto].
      destruct (recurse_good i mi Hv) as (i' & ->). simpl. eauto. }
    split.
    + destruct (Range_Done (fun _ => true) (Filter_entry recurse m) entries)
        as (entries' & HR); [intros; now apply Hentry|].
      unfold Map_Range. rewrite HR. simpl. eauto.
    + destruct (Range_Done (fun _ => true) (Prune_entry recurse m) entries)
        as (entries' & HR); [intros; now apply Hentry|].
      unfold Map_Range. rewrite HR. simpl. eauto.
Qed.
End ExactDone.

Lemma lists_hold_messages_Done (msg : Message) :
  lists_hold_messages msg = true ->
  forall mask, (exists msg', NestedMask_Filter mask msg = Done msg') /\
               (exists msg', NestedMask_Prune mask msg = Done msg').
Proof.
  induction msg as [fs IH] using Message_induction. intros Hok mask.
  simpl in Hok. rewrite forallb_forall in Hok. rewrite Forall_forall in IH.
  set (good := fun x => lists_hold_messages x = true /\
         forall mask, (exists x', NestedMask_Filter mask x = Done x') /\
                      (exists x', NestedMask_Prune mask x = Done x')).
  assert (Hfield : forall name v, In (name, v) fs ->
            match v with
            | VScalar _ => True
            | VMessage x => good x
            | VList elems => Forall (fun e => exists x, e = VMessage x /\ good x) elems
            | VMap entries => Forall (fun e => on_message good (snd e)) entries
            end).
  { intros name v Hin. specialize (Hok _ Hin). simpl in Hok.
    apply list_elem_of_In in Hin. specialize (IH _ Hin). simpl in IH.
    destruct v as [s|x|elems|entries]; simpl in *.
    - exact I.
    - split; [exact Hok | now apply IH].
    - rewrite forallb_forall in Hok. rewrite Forall_forall in IH |- *.
      intros e He. specialize (IH e He). apply list_elem_of_In in He.
      specialize (Hok e He). destruct e as [s|x|l|es]; try discriminate.
      exists x. split; [reflexivity|]. split; [exact Hok | now apply IH].
    - rewrite forallb_forall in Hok. rewrite Forall_forall in IH |- *.
      intros [mk mv] He. specialize (IH _ He). apply list_elem_of_In in He.
      specialize (Hok _ He). simpl in *.
      destruct mv as [s|x|l|es]; simpl; auto.
      split; [exact Hok | now apply IH]. }
  split.
  - rewrite NestedMask_Filter_unfold. destruct (len mask =? 0)%nat; [eauto|].
    destruct (Range_Done populated (Filter_field NestedMask_Filter mask) fs)
      as (fs' & HR); [|unfold Message_Range; rewrite HR; simpl; eauto].
    intros name v Hin.
    apply (exact_field_Done NestedMask_Filter good); [|now apply (Hfield name)].
    intros x m [_ Hx]. apply Hx.
  - rewrite NestedMask_Prune_unfold. destruct (len mask =? 0)%nat; [eauto|].
    destruct (Range_Done populated (Prune_field NestedMask_Prune mask) fs)
      as (fs' & HR); [|unfold Message_Range; rewrite HR; simpl; eauto].
    intros name v Hin.
    apply (exact_field_Done NestedMask_Prune good); [|now apply (Hfield name)].
    intros x m [_ Hx]. apply Hx.
Qed.

(** X17. On a message in which every list field, at any depth, holds
    messages only, [Filter] and [Prune] return for every mask: the call
    [list.Get(i).Message()] on an element that is no message is their only
    panic. *)
Theorem X17_no_panic_without_scalar_lists (mask : NestedMask) (msg : Message)
    (Hlists : lists_hold_messages msg = true) :
  (exists msg', NestedMask_Filter mask msg = Done msg') /\
  (exists msg', NestedMask_Prune mask msg = Done msg').
Proof. now apply lists_hold_messages_Done. Qed.

Lemma X17_no_panic_without_scalar_lists_witness :
  (exists msg', NestedMask_Filter
                  (NestedMaskFromPaths ["attrs.a2.tags.t2"; "gallery.path"])
                  (Msg [("attrs", VMap [(KString "a2", attribute)]);
                        ("gallery", VList [photo; photo])]) = Done msg').
Proof.
  apply (X17_no_panic_without_scalar_lists
           (NestedMaskFromPaths ["attrs.a2.tags.t2"; "gallery.path"])
           (Msg [("attrs", VMap [(KString "a2", attribute)]);
                 ("gallery", VList [photo; photo])])).
  reflexivity.
Defined.

(** ** Paths that add nothing, and the wrappers *)

Lemma has_path_prefix (ks ks' : list string) (mask : NestedMask) :
  ks `prefix_of` ks' -> has_path ks' mask -> has_path ks mask.
Proof.
  intros [tail ->]. revert mask.
  induction ks as [|k r IH]; intros mask; simpl; [auto|].
  destruct (mask !! k); [apply IH | auto].
Qed.

Lemma insert_segs_present (ks : list string) (mask : NestedMask) :
  has_path ks mask -> insert_segs ks mask = mask.
Proof.
  revert mask. induction ks as [|k r IH]; intros mask; simpl; [auto|].
  destruct (mask !! k) as [c|] eqn:E; [|intros []].
  intros Hc. simpl. rewrite (IH c Hc). now apply mask_insert_id.
Qed.

(** X18. A path whose segments are the beginning of the segments of a
    listed path adds nothing to the tree: the list with it and the list
    without it build the same mask.  So ["user"] next to ["user.name"]
    counts for nothing, and the node of [user] is not a leaf. *)
Theorem X18_builder_prefix_path_redundant (paths : list string) (p q : string)
    (Hq : In q paths)
    (Hprefix : segments p EmptyString `prefix_of` segments q EmptyString) :
  NestedMaskFromPaths (p :: paths) = NestedMaskFromPaths paths /\
  WildcardNestedMaskFromPaths (p :: paths) = WildcardNestedMaskFromPaths paths.
Proof.
  assert (H : NestedMaskFromPaths (p :: paths) = NestedMaskFromPaths paths).
  { unfold NestedMaskFromPaths. simpl.
    rewrite <- (fold_left_commute add_path add_path_commute).
    unfold add_path at 1. rewrite walk_insert_segs.
    apply insert_segs_present.
    apply (has_path_prefix _ _ _ Hprefix). now apply has_path_build. }
  split; exact H.
Qed.

Lemma X18_builder_prefix_path_redundant_witness :
  NestedMaskFromPaths ["user"; "user.name"] = NestedMaskFromPaths ["user.name"].
Proof.
  apply (X18_builder_prefix_path_redundant ["user.name"] "user" "user.name").
  - simpl. auto.
  - exists ["name"]. reflexivity.
Defined.

(** X19. The one-shot wrappers see the paths only through the tree they
    build: [Filter], [Prune], [WildcardFilter] and [WildcardPrune] give the
    same result on a message for two path lists that are permutations of
    each other, and for a list and the same list written twice. *)
Theorem X19_wrappers_ignore_order_and_repeats (msg : Message)
    (P Q : list string)
    (HPQ : Permutation P Q) :
  (Filter msg P = Filter msg Q /\ Prune msg P = Prune msg Q /\
   WildcardFilter msg P = WildcardFilter msg Q /\
   WildcardPrune msg P = WildcardPrune msg Q) /\
  (Filter msg (P ++ P) = Filter msg P /\ Prune msg (P ++ P) = Prune msg P /\
   WildcardFilter msg (P ++ P) = WildcardFilter msg P /\
   WildcardPrune msg (P ++ P) = WildcardPrune msg P).
Proof.
  assert (Hperm : NestedMaskFromPaths P = NestedMaskFromPaths Q).
  { unfold NestedMaskFromPaths.
    now apply fold_left_permutation; [apply add_path_commute|]. }
  assert (Htwice : NestedMaskFromPaths (P ++ P) = NestedMaskFromPaths P).
  { unfold NestedMaskFromPaths. rewrite fold_left_app.
    apply fold_left_absorbed. intros x Hx.
    apply fold_left_absorbs; auto using add_path_commute, add_path_idem. }
  unfold Filter, Prune, WildcardFilter, WildcardPrune.
  change WildcardNestedMaskFromPaths with NestedMaskFromPaths.
  rewrite Htwice, Hperm. repeat split.
Qed.

Lemma X19_wrappers_ignore_order_and_repeats_witness :
  Filter profile ["user.name"; "photo"] = Filter profile ["photo"; "user.name"].
Proof.
  apply (X19_wrappers_ignore_order_and_repeats profile
           ["user.name"; "photo"] ["photo"; "user.name"]
           (perm_swap "photo" "user.name" [])).
Defined.
